(** * prex: AsyncQueue and ReaderWriterLock

    A shallow embedding of [src/lib/queue.ts] and
    [src/lib/readerwriterlock.ts].  JavaScript objects that the code
    shares by reference (promises, lock handles, queue nodes) live in
    explicit heaps: a list whose index is the identity of the object. *)

From Stdlib Require Import ZArith Lia.
From stdpp Require Import base option list sorting.

Local Open Scope Z_scope.

(** ** AsyncQueue (src/lib/queue.ts) *)

Module AsyncQueue.

Section Queue.
Context {T : Type}.

(** The two ways the class creates a promise: [Promise.resolve(value)]
    (constructor and [put]) and [new Promise(resolve => ...)] in [get],
    whose resolver is identified by the index of its cell. *)
Inductive promise :=
| PromiseResolve (value : T)
| PromiseNew (resolve : nat).

Record queue := {
  _available : option (list promise);
  _pending : option (list nat);
  (** heap of the promises made by [get]: [None] while unresolved *)
  cells : list (option T)
}.

(** [Array.prototype.shift] *)
Definition shift {A} (l : list A) : option A * list A :=
  match l with
  | [] => (None, [])
  | x :: l' => (Some x, l')
  end.

(** [constructor(iterable?)]; a missing iterable leaves both arrays
    undefined. *)
Definition constructor (iterable : option (list T)) : queue :=
  match iterable with
  | None => {| _available := None; _pending := None; cells := [] |}
  | Some values =>
      {| _available := Some (PromiseResolve <$> values);
         _pending := None; cells := [] |}
  end.

(** [get size()] *)
Definition size (q : queue) : Z :=
  match _available q with
  | Some ((_ :: _) as a) => Z.of_nat (length a)
  | _ =>
      match _pending q with
      | Some ((_ :: _) as p) => - Z.of_nat (length p)
      | _ => 0
      end
  end.

(** calling the resolver of a promise made by [get] *)
Definition resolve (r : nat) (value : T) (q : queue) : queue :=
  {| _available := _available q; _pending := _pending q;
     cells := <[r := Some value]> (cells q) |}.

Definition push_available (value : T) (q : queue) : queue :=
  {| _available := Some (default [] (_available q) ++ [PromiseResolve value]);
     _pending := _pending q; cells := cells q |}.

(** [put(value)] *)
Definition put (value : T) (q : queue) : queue :=
  match _pending q with
  | Some p =>
      match shift p with
      | (Some r, p') =>
          resolve r value
            {| _available := _available q; _pending := Some p';
               cells := cells q |}
      | (None, _) => push_available value q
      end
  | None => push_available value q
  end.

Definition push_pending (q : queue) : promise * queue :=
  let r := length (cells q) in
  (PromiseNew r,
   {| _available := _available q;
      _pending := Some (default [] (_pending q) ++ [r]);
      cells := cells q ++ [None] |}).

(** [get()] *)
Definition get (q : queue) : promise * queue :=
  match _available q with
  | Some a =>
      match shift a with
      | (Some p, a') =>
          (p, {| _available := Some a'; _pending := _pending q;
                 cells := cells q |})
      | (None, _) => push_pending q
      end
  | None => push_pending q
  end.

(** What a promise handed out by [get] has been settled with. *)
Definition value_of (q : queue) (p : promise) : option T :=
  match p with
  | PromiseResolve v => Some v
  | PromiseNew r => mjoin (cells q !! r)
  end.

(** Programs over one queue: the calls in program order. *)
Inductive op := Put (value : T) | Get.

(** Runs the calls; the second component collects, in order, the
    promises returned by the [get]s. *)
Fixpoint run (ops : list op) (q : queue) : queue * list promise :=
  match ops with
  | [] => (q, [])
  | Put v :: ops' => run ops' (put v q)
  | Get :: ops' =>
      let '(p, q') := get q in
      let '(q'', ps) := run ops' q' in
      (q'', p :: ps)
  end.

Fixpoint puts (ops : list op) : list T :=
  match ops with
  | [] => []
  | Put v :: ops' => v :: puts ops'
  | Get :: ops' => puts ops'
  end.

Definition available (q : queue) : list promise := default [] (_available q).
Definition pending (q : queue) : list nat := default [] (_pending q).

(** The data-model invariant of the class. *)
Definition exclusive (q : queue) : Prop :=
  available q = [] ∨ pending q = [].

Definition size_spec (q : queue) : Prop :=
  (available q ≠ [] → size q = Z.of_nat (length (available q))) ∧
  (pending q ≠ [] → size q = - Z.of_nat (length (pending q))) ∧
  (available q = [] → pending q = [] → size q = 0).

(** Bookkeeping for the rendezvous order: [ps] are the values supplied
    so far (the constructor's first), [gs] the promises handed out so
    far.  The promises before the parked ones are settled with the
    values before the buffered ones, position by position. *)
Definition fifo (q : queue) (ps : list T) (gs : list promise) : Prop :=
  ∃ gd pd pa,
    ps = pd ++ pa ∧
    available q = PromiseResolve <$> pa ∧
    gs = gd ++ (PromiseNew <$> pending q) ∧
    value_of q <$> gd = Some <$> pd ∧
    exclusive q ∧
    NoDup (pending q) ∧
    (∀ r, r ∈ pending q → cells q !! r = Some None).

End Queue.

Arguments promise : clear implicits.
Arguments queue : clear implicits.
Arguments op : clear implicits.

End AsyncQueue.

(** ** ReaderWriterLock (src/lib/readerwriterlock.ts) *)

Module ReaderWriterLock.

(** The four kinds of request; each has its own [LinkedList] of waiters. *)
Inductive role := Reader | UpgradeableReader | Upgrader | Writer.

Inductive error :=
| CancelError
| LockAlreadyReleased  (** [new Error("Lock already released.")] *)
| NotAHandle.          (** the callee is not an object minted by this lock *)

Inductive result (A : Type) :=
| Return (a : A)
| Throw (e : error).
Arguments Return {A} a.
Arguments Throw {A} e.

(** State of the promise returned by a request. *)
Inductive settlement :=
| Unsettled
| Resolved (hold : nat)
| Rejected (e : error).

(** The closure pushed on a queue: it captures the [resolve]/[reject] pair
    of its promise and the token of the request ([None] is
    [CancellationToken.none]).  The promise doubles as the identity of the
    list node. *)
Record waiter := { w_promise : nat; w_token : option nat }.

(** The objects returned by the four [_take...] methods.  Read and write
    handles close over a [released] flag; the other two compare themselves
    with [_upgradeable] and [_upgraded]. *)
Inductive handle :=
| ReadHandle (released : bool)
| UpgradeableHandle
| UpgradeHandle
| WriteHandle (released : bool).

Record lock := {
  _readers : list waiter;
  _upgradeables : list waiter;
  _upgrades : list waiter;
  _writers : list waiter;
  _upgradeable : option nat;
  _upgraded : option nat;
  _count : Z;
  (** heap of the handles minted so far, a handle is its index *)
  handles : list handle;
  (** heap of the promises returned so far, with the kind of request *)
  promises : list (role * settlement);
  (** tokens whose cancellation has been requested *)
  cancellationRequested : list nat;
  (** callbacks registered with a token and not yet unregistered *)
  registrations : list (role * waiter)
}.

Definition set_readers (x : list waiter) (s : lock) : lock :=
  {| _readers := x; _upgradeables := _upgradeables s;
     _upgrades := _upgrades s; _writers := _writers s;
     _upgradeable := _upgradeable s; _upgraded := _upgraded s;
     _count := _count s; handles := handles s; promises := promises s;
     cancellationRequested := cancellationRequested s;
     registrations := registrations s |}.
Definition set_upgradeables (x : list waiter) (s : lock) : lock :=
  {| _readers := _readers s; _upgradeables := x; _upgrades := _upgrades s;
     _writers := _writers s; _upgradeable := _upgradeable s;
     _upgraded := _upgraded s; _count := _count s; handles := handles s;
     promises := promises s;
     cancellationRequested := cancellationRequested s;
     registrations := registrations s |}.
Definition set_upgrades (x : list waiter) (s : lock) : lock :=
  {| _readers := _readers s; _upgradeables := _upgradeables s;
     _upgrades := x; _writers := _writers s;
     _upgradeable := _upgradeable s; _upgraded := _upgraded s;
     _count := _count s; handles := handles s; promises := promises s;
     cancellationRequested := cancellationRequested s;
     registrations := registrations s |}.
Definition set_writers (x : list waiter) (s : lock) : lock :=
  {| _readers := _readers s; _upgradeables := _upgradeables s;
     _upgrades := _upgrades s; _writers := x;
     _upgradeable := _upgradeable s; _upgraded := _upgraded s;
     _count := _count s; handles := handles s; promises := promises s;
     cancellationRequested := cancellationRequested s;
     registrations := registrations s |}.
Definition set_upgradeable (x : option nat) (s : lock) : lock :=
  {| _readers := _readers s; _upgradeables := _upgradeables s;
     _upgrades := _upgrades s; _writers := _writers s; _upgradeable := x;
     _upgraded := _upgraded s; _count := _count s; handles := handles s;
     promises := promises s;
     cancellationRequested := cancellationRequested s;
     registrations := registrations s |}.
Definition set_upgraded (x : option nat) (s : lock) : lock :=
  {| _readers := _readers s; _upgradeables := _upgradeables s;
     _upgrades := _upgrades s; _writers := _writers s;
     _upgradeable := _upgradeable s; _upgraded := x; _count := _count s;
     handles := handles s; promises := promises s;
     cancellationRequested := cancellationRequested s;
     registrations := registrations s |}.
Definition set_count (x : Z) (s : lock) : lock :=
  {| _readers := _readers s; _upgradeables := _upgradeables s;
     _upgrades := _upgrades s; _writers := _writers s;
     _upgradeable := _upgradeable s; _upgraded := _upgraded s; _count := x;
     handles := handles s; promises := promises s;
     cancellationRequested := cancellationRequested s;
     registrations := registrations s |}.
Definition set_handles (x : list handle) (s : lock) : lock :=
  {| _readers := _readers s; _upgradeables := _upgradeables s;
     _upgrades := _upgrades s; _writers := _writers s;
     _upgradeable := _upgradeable s; _upgraded := _upgraded s;
     _count := _count s; handles := x; promises := promises s;
     cancellationRequested := cancellationRequested s;
     registrations := registrations s |}.
Definition set_promises (x : list (role * settlement)) (s : lock) : lock :=
  {| _readers := _readers s; _upgradeables := _upgradeables s;
     _upgrades := _upgrades s; _writers := _writers s;
     _upgradeable := _upgradeable s; _upgraded := _upgraded s;
     _count := _count s; handles := handles s; promises := x;
     cancellationRequested := cancellationRequested s;
     registrations := registrations s |}.
Definition set_cancellationRequested (x : list nat) (s : lock) : lock :=
  {| _readers := _readers s; _upgradeables := _upgradeables s;
     _upgrades := _upgrades s; _writers := _writers s;
     _upgradeable := _upgradeable s; _upgraded := _upgraded s;
     _count := _count s; handles := handles s; promises := promises s;
     cancellationRequested := x; registrations := registrations s |}.
Definition set_registrations (x : list (role * waiter)) (s : lock) : lock :=
  {| _readers := _readers s; _upgradeables := _upgradeables s;
     _upgrades := _upgrades s; _writers := _writers s;
     _upgradeable := _upgradeable s; _upgraded := _upgraded s;
     _count := _count s; handles := handles s; promises := promises s;
     cancellationRequested := cancellationRequested s;
     registrations := x |}.

(** [new ReaderWriterLock()] *)
Definition new_lock : lock :=
  {| _readers := []; _upgradeables := []; _upgrades := []; _writers := [];
     _upgradeable := None; _upgraded := None; _count := 0;
     handles := []; promises := []; cancellationRequested := [];
     registrations := [] |}.

Definition queue (q : role) (s : lock) : list waiter :=
  match q with
  | Reader => _readers s
  | UpgradeableReader => _upgradeables s
  | Upgrader => _upgrades s
  | Writer => _writers s
  end.

Definition set_queue (q : role) (l : list waiter) (s : lock) : lock :=
  match q with
  | Reader => set_readers l s
  | UpgradeableReader => set_upgradeables l s
  | Upgrader => set_upgrades l s
  | Writer => set_writers l s
  end.

(** JavaScript truthiness of [T | undefined] for an object type [T] *)
Definition truthy {A} (o : option A) : bool :=
  match o with Some _ => true | None => false end.

(** *** Modelled collaborators: promise, token, linked list *)

Definition settle (p : nat) (r : settlement) (s : lock) : lock :=
  match promises s !! p with
  | Some (q, Unsettled) => set_promises (<[p := (q, r)]> (promises s)) s
  | _ => s
  end.

(** Modelled from the spec: the cancellation token of [./cancellation],
    which is outside the sources at hand.  [is_cancelled] reads a flag,
    [register] stores a callback, [unregister] drops it, and a callback
    runs at most once, after the flag was raised. *)
Definition is_cancelled (token : option nat) (s : lock) : bool :=
  match token with
  | Some t => bool_decide (t ∈ cancellationRequested s)
  | None => false
  end.

Definition same_node (w x : waiter) : bool :=
  bool_decide (w_promise x = w_promise w).

Definition register (q : role) (w : waiter) (s : lock) : lock :=
  set_registrations (registrations s ++ [(q, w)]) s.

Definition unregister (w : waiter) (s : lock) : lock :=
  set_registrations
    (filter (λ r, same_node w r.2 = false) (registrations s)) s.

(** Modelled from the spec: [LinkedList.deleteNode] of [./list], removal
    of one node by its handle, and [node.list], the list the node is on. *)
Definition deleteNode (w : waiter) (l : list waiter) : list waiter :=
  filter (λ x, same_node w x = false) l.

Definition on_list (w : waiter) (l : list waiter) : bool :=
  existsb (same_node w) l.

(** *** Admission predicates *)

Definition _canTakeReadLock (s : lock) : bool :=
  (0 <=? _count s)
  && (length (_writers s) =? 0)%nat
  && (length (_upgrades s) =? 0)%nat
  && (length (_writers s) =? 0)%nat.

Definition _canTakeUpgradeableReadLock (s : lock) : bool :=
  (0 <=? _count s) && negb (truthy (_upgradeable s)).

Definition _canTakeUpgradeLock (s : lock) : bool :=
  (_count s =? 1) && truthy (_upgradeable s) && negb (truthy (_upgraded s)).

Definition _canTakeWriteLock (s : lock) : bool :=
  _count s =? 0.

Definition canTake (q : role) : lock → bool :=
  match q with
  | Reader => _canTakeReadLock
  | UpgradeableReader => _canTakeUpgradeableReadLock
  | Upgrader => _canTakeUpgradeLock
  | Writer => _canTakeWriteLock
  end.

(** *** Acquire actions; each returns the new handle *)

Definition _takeReadLock (s : lock) : nat * lock :=
  let hold := length (handles s) in
  (hold,
   set_handles (handles s ++ [ReadHandle false]) (set_count (_count s + 1) s)).

Definition _takeUpgradeableReadLock (s : lock) : nat * lock :=
  let hold := length (handles s) in
  (hold,
   set_upgradeable (Some hold)
     (set_count (_count s + 1)
        (set_handles (handles s ++ [UpgradeableHandle]) s))).

Definition _takeUpgradeLock (s : lock) : nat * lock :=
  let hold := length (handles s) in
  (hold,
   set_count (-1)
     (set_upgraded (Some hold)
        (set_handles (handles s ++ [UpgradeHandle]) s))).

Definition _takeWriteLock (s : lock) : nat * lock :=
  let hold := length (handles s) in
  (hold,
   set_handles (handles s ++ [WriteHandle false]) (set_count (-1) s)).

Definition take (q : role) : lock → nat * lock :=
  match q with
  | Reader => _takeReadLock
  | UpgradeableReader => _takeUpgradeableReadLock
  | Upgrader => _takeUpgradeLock
  | Writer => _takeWriteLock
  end.

(** *** The two closures of a parked request *)

(** The closure pushed on the queue, run by the scheduler. *)
Definition resolver (q : role) (w : waiter) (s : lock) : lock :=
  let s := unregister w s in
  if is_cancelled (w_token w) s
  then settle (w_promise w) (Rejected CancelError) s
  else
    let '(hold, s) := take q s in
    settle (w_promise w) (Resolved hold) s.

(** The callback registered with the token. *)
Definition on_cancel (q : role) (w : waiter) (s : lock) : lock :=
  if on_list w (queue q s)
  then
    settle (w_promise w) (Rejected CancelError)
      (set_queue q (deleteNode w (queue q s)) s)
  else s.

(** *** Requests: [read], [upgradeableRead], [write], [_upgrade] *)

(** The body shared by the four methods; returns the promise. *)
Definition request (q : role) (token : option nat) (s : lock) : nat * lock :=
  let p := length (promises s) in
  let s := set_promises (promises s ++ [(q, Unsettled)]) s in
  if is_cancelled token s
  then (p, settle p (Rejected CancelError) s)
  else if canTake q s
  then
    let '(hold, s) := take q s in
    (p, settle p (Resolved hold) s)
  else
    let w := {| w_promise := p; w_token := token |} in
    (p, register q w (set_queue q (queue q s ++ [w]) s)).

Definition read : option nat → lock → nat * lock := request Reader.
Definition upgradeableRead : option nat → lock → nat * lock :=
  request UpgradeableReader.
Definition write : option nat → lock → nat * lock := request Writer.
Definition _upgrade : option nat → lock → nat * lock := request Upgrader.

(** *** Scheduling *)

Definition _processWriteLockRequest (s : lock) : bool * lock :=
  if _canTakeWriteLock s then
    match _writers s with
    | w :: ws => (true, resolver Writer w (set_writers ws s))
    | [] => (false, s)
    end
  else (false, s).

Definition _processUpgradeRequest (s : lock) : bool * lock :=
  if _canTakeUpgradeLock s then
    match _upgrades s with
    | w :: ws => (true, resolver Upgrader w (set_upgrades ws s))
    | [] => (false, s)
    end
  else (false, s).

Definition _processUpgradeableReadLockRequest (s : lock) : lock :=
  if _canTakeUpgradeableReadLock s then
    match _upgradeables s with
    | w :: ws => resolver UpgradeableReader w (set_upgradeables ws s)
    | [] => s
    end
  else s.

Definition _processReadLockRequests (s : lock) : lock :=
  if _canTakeReadLock s then
    set_readers [] (foldl (λ s w, resolver Reader w s) s (_readers s))
  else s.

Definition _processLockRequests (s : lock) : lock :=
  let '(woke, s1) := _processWriteLockRequest s in
  if woke then s1 else
  let '(woke, s2) := _processUpgradeRequest s1 in
  if woke then s2 else
  _processReadLockRequests (_processUpgradeableReadLockRequest s2).

(** *** Release actions *)

Definition _releaseReadLock (s : lock) : lock :=
  _processLockRequests (set_count (_count s - 1) s).

Definition _releaseUpgradeableReadLock (s : lock) : lock :=
  let s := if _count s =? -1 then set_count 0 s
           else set_count (_count s - 1) s in
  _processLockRequests (set_upgradeable None (set_upgraded None s)).

Definition _releaseUpgradeLock (s : lock) : lock :=
  _processLockRequests (set_count 1 (set_upgraded None s)).

Definition _releaseWriteLock (s : lock) : lock :=
  _processLockRequests (set_count 0 s).

(** *** The methods of the handles *)

(** [hold.release()] *)
Definition release (hold : nat) (s : lock) : result lock :=
  match handles s !! hold with
  | Some (ReadHandle released) =>
      if released then Throw LockAlreadyReleased
      else
        Return
          (_releaseReadLock
             (set_handles (<[hold := ReadHandle true]> (handles s)) s))
  | Some UpgradeableHandle =>
      if bool_decide (_upgradeable s = Some hold)
      then Return (_releaseUpgradeableReadLock s)
      else Throw LockAlreadyReleased
  | Some UpgradeHandle =>
      if bool_decide (_upgraded s = Some hold)
      then Return (_releaseUpgradeLock s)
      else Throw LockAlreadyReleased
  | Some (WriteHandle released) =>
      if released then Throw LockAlreadyReleased
      else
        Return
          (_releaseWriteLock
             (set_handles (<[hold := WriteHandle true]> (handles s)) s))
  | None => Throw NotAHandle
  end.

(** [hold.upgrade(token)], only upgradeable handles have it *)
Definition upgrade (hold : nat) (token : option nat) (s : lock)
  : result (nat * lock) :=
  match handles s !! hold with
  | Some UpgradeableHandle =>
      if bool_decide (_upgradeable s = Some hold)
      then Return (_upgrade token s)
      else Throw LockAlreadyReleased
  | _ => Throw NotAHandle
  end.

(** *** Executions *)

(** The events the lock can see.  [Cancel] raises the flag of a token;
    [Notify] is the token running the callback registered by the request
    of promise [p], which it does once, after the flag went up and unless
    the callback was unregistered. *)
Inductive op :=
| Read (token : option nat)
| UpgradeableRead (token : option nat)
| Write (token : option nat)
| Upgrade (hold : nat) (token : option nat)
| Release (hold : nat)
| Cancel (token : nat)
| Notify (p : nat).

Definition notify (p : nat) (s : lock) : lock :=
  match list_find (λ r, w_promise r.2 = p) (registrations s) with
  | Some (_, (q, w)) =>
      if is_cancelled (w_token w) s
      then on_cancel q w (unregister w s)
      else s
  | None => s
  end.

(** A call that throws leaves the lock as it was. *)
Definition step (o : op) (s : lock) : lock :=
  match o with
  | Read token => (read token s).2
  | UpgradeableRead token => (upgradeableRead token s).2
  | Write token => (write token s).2
  | Upgrade hold token =>
      match upgrade hold token s with
      | Return (_, s') => s'
      | Throw _ => s
      end
  | Release hold =>
      match release hold s with
      | Return s' => s'
      | Throw _ => s
      end
  | Cancel t => set_cancellationRequested (t :: cancellationRequested s) s
  | Notify p => notify p s
  end.

Definition run (ops : list op) (s : lock) : lock := foldl (λ s o, step o s) s ops.

#[global] Instance role_eq_dec : EqDecision role.
Proof. solve_decision. Defined.
#[global] Instance op_eq_dec : EqDecision op.
Proof. solve_decision. Defined.

(** *** Observations on executions *)

Definition reachable (s : lock) : Prop := ∃ ops, s = run ops new_lock.

(** The state in which [hold.release()] calls [_processLockRequests]. *)
Definition scheduling_entry (hold : nat) (s : lock) : option lock :=
  match handles s !! hold with
  | Some (ReadHandle false) =>
      Some (set_count (_count s - 1)
              (set_handles (<[hold := ReadHandle true]> (handles s)) s))
  | Some UpgradeableHandle =>
      if bool_decide (_upgradeable s = Some hold) then
        Some (set_upgradeable None
                (set_upgraded None
                   (if _count s =? -1 then set_count 0 s
                    else set_count (_count s - 1) s)))
      else None
  | Some UpgradeHandle =>
      if bool_decide (_upgraded s = Some hold)
      then Some (set_count 1 (set_upgraded None s))
      else None
  | Some (WriteHandle false) =>
      Some (set_count 0
              (set_handles (<[hold := WriteHandle true]> (handles s)) s))
  | _ => None
  end.

(** The states between the four steps of [_processLockRequests]. *)
Definition scheduling_states (s : lock) : list lock :=
  let '(woke, s1) := _processWriteLockRequest s in
  if woke then [s; s1] else
  let '(woke, s2) := _processUpgradeRequest s1 in
  if woke then [s; s1; s2] else
  let s3 := _processUpgradeableReadLockRequest s2 in
  [s; s1; s2; s3; _processReadLockRequests s3].

(** Where an operation starts or ends: before and after every call made
    from outside, and around every step of the scheduling that a release
    runs. *)
Inductive boundary : lock → Prop :=
| boundary_call ops : boundary (run ops new_lock)
| boundary_scheduling ops hold s1 s2 :
    scheduling_entry hold (run ops new_lock) = Some s1 →
    s2 ∈ scheduling_states s1 →
    boundary s2.

(** *** The census *)

Definition live_read (h : handle) : nat :=
  match h with ReadHandle false => 1 | _ => 0 end.
Definition live_write (h : handle) : nat :=
  match h with WriteHandle false => 1 | _ => 0 end.

(** Number of read (write) handles handed out and not yet released. *)
Definition readers_in (s : lock) : Z :=
  Z.of_nat (sum_list_with live_read (handles s)).
Definition writers_in (s : lock) : Z :=
  Z.of_nat (sum_list_with live_write (handles s)).

(** [_count] against the handles that are out: shared mode, a plain
    writer, or the upgraded writer. *)
Inductive census (s : lock) : Prop :=
| census_shared :
    _upgraded s = None → writers_in s = 0 →
    _count s = readers_in s + (if truthy (_upgradeable s) then 1 else 0) →
    census s
| census_writer :
    _count s = -1 → readers_in s = 0 → writers_in s = 1 →
    _upgradeable s = None → _upgraded s = None →
    census s
| census_upgraded :
    _count s = -1 → readers_in s = 0 → writers_in s = 0 →
    is_Some (_upgradeable s) → is_Some (_upgraded s) →
    census s.

(** What the admission predicate of a role says about the census fields. *)
Definition admits (q : role) (s : lock) : Prop :=
  match q with
  | Reader => 0 ≤ _count s
  | UpgradeableReader => 0 ≤ _count s ∧ _upgradeable s = None
  | Upgrader => _count s = 1 ∧ is_Some (_upgradeable s) ∧ _upgraded s = None
  | Writer => _count s = 0
  end.

Definition new_handle (q : role) : handle :=
  match q with
  | Reader => ReadHandle false
  | UpgradeableReader => UpgradeableHandle
  | Upgrader => UpgradeHandle
  | Writer => WriteHandle false
  end.

(** *** Handles that are used up *)

(** A handle whose [release] can only throw. *)
Definition spent (hold : nat) (s : lock) : Prop :=
  match handles s !! hold with
  | Some (ReadHandle released) | Some (WriteHandle released) =>
      released = true
  | Some UpgradeableHandle => _upgradeable s ≠ Some hold
  | Some UpgradeHandle => _upgraded s ≠ Some hold
  | None => False
  end.

(** [s'] comes out of [s] by minting handles only: the handles of [s] are
    untouched, and a handle that became the upgradeable or the upgraded one
    is new. *)
Definition extends (s s' : lock) : Prop :=
  handles s `prefix_of` handles s' ∧
  (∀ u, _upgradeable s' = Some u →
        _upgradeable s = Some u ∨ (length (handles s) ≤ u)%nat) ∧
  (∀ g, _upgraded s' = Some g →
        _upgraded s = Some g ∨ (length (handles s) ≤ g)%nat).

(** *** The queues *)

(** Every parked request sits once on the queue of its role and its
    promise is still open. *)
Definition queues_wf (s : lock) : Prop :=
  ∀ q, NoDup (w_promise <$> queue q s) ∧
       ∀ w, w ∈ queue q s → promises s !! w_promise w = Some (q, Unsettled).

(** Promises are numbered in the order the requests arrive, so a read
    request made after the request of [w] has a larger number.  None of
    those holds the lock while [w] still waits to write. *)
Definition writer_order (s : lock) : Prop :=
  ∀ w p hold, w ∈ _writers s → (w_promise w < p)%nat →
              promises s !! p ≠ Some (Reader, Resolved hold).

(** *** More observations *)

(** As [writer_order], for the queue of role [b]: no read request that
    arrived after a request parked on that queue holds the lock. *)
Definition reader_barrier (b : role) (s : lock) : Prop :=
  ∀ w p hold, w ∈ queue b s → (w_promise w < p)%nat →
              promises s !! p ≠ Some (Reader, Resolved hold).

(** Every queue lists its waiters by arrival. *)
Definition arrival_order (s : lock) : Prop :=
  ∀ q, StronglySorted lt (w_promise <$> queue q s).

(** The callbacks registered with tokens are those of the parked
    requests. *)
Definition registered_parked (s : lock) : Prop :=
  ∀ q w, (q, w) ∈ registrations s ↔ w ∈ queue q s.

(** No writer, upgradeable reader or reader is parked while the admission
    predicate of its role holds. *)
Definition eager (s : lock) : Prop :=
  (_writers s ≠ [] → _canTakeWriteLock s = false) ∧
  (_upgradeables s ≠ [] → _canTakeUpgradeableReadLock s = false) ∧
  (_readers s ≠ [] → _canTakeReadLock s = false).

End ReaderWriterLock.

(** * Properties of AsyncQueue *)

Section AsyncQueueFacts.
Import AsyncQueue.
Context {T : Type}.
Implicit Types (q : queue T) (v : T) (p : promise T) (ops : list (op T)).

Lemma exclusive_constructor (iterable : option (list T)) :
  exclusive (constructor iterable).
Proof. right. by destruct iterable. Qed.

Lemma exclusive_put q v : exclusive q → exclusive (put v q).
Proof.
  unfold exclusive, put, available, pending.
  destruct q as [a [[|r p']|] c]; simpl; intros [Ha|Hp]; auto; try done.
Qed.

Lemma exclusive_get q : exclusive q → exclusive (get q).2.
Proof.
  unfold exclusive, get, available, pending.
  destruct q as [[[|x a']|] p c]; simpl; intros [Ha|Hp]; auto; try done.
Qed.

Lemma exclusive_size q : exclusive q → size_spec q.
Proof.
  unfold exclusive, size_spec, size, available, pending.
  destruct q as [[[|x a']|] [[|r p']|] c]; simpl; intros [?|?];
    repeat split; intros; try done.
Qed.

Lemma exclusive_run ops q : exclusive q → exclusive (run ops q).1.
Proof.
  revert q. induction ops as [|[v|] ops IH]; intros q Hq; simpl; [done|auto using exclusive_put|].
  pose proof (exclusive_get q Hq) as Hg.
  destruct (get q) as [p q']. specialize (IH q' Hg).
  by destruct (run ops q').
Qed.

(** C7: in every state reached from the constructor by calls of [put] and
    [get], the buffer and the parked consumers are not both non-empty and
    [size] is the length of the buffer, minus the number of parked
    consumers, or zero; one more [put] or [get] keeps it so. *)
Theorem queue_invariant (iterable : option (list T)) ops :
  let q := (run ops (constructor iterable)).1 in
  (exclusive q ∧ size_spec q) ∧
  (∀ v, exclusive (put v q) ∧ size_spec (put v q)) ∧
  (exclusive (get q).2 ∧ size_spec (get q).2).
Proof.
  intros q.
  assert (exclusive q) as Hq
    by apply exclusive_run, exclusive_constructor.
  split; [|split]; [|intros v|];
    (split; [|apply exclusive_size]);
    auto using exclusive_put, exclusive_get.
Qed.

Lemma fifo_constructor (iterable : option (list T)) :
  fifo (constructor iterable) (default [] iterable) [].
Proof.
  exists [], [], (default [] iterable).
  destruct iterable; repeat split; simpl; try done;
    try (by right); try apply NoDup_nil_2;
    intros r Hr; by apply elem_of_nil in Hr.
Qed.

Lemma value_of_cells q q' p :
  cells q = cells q' → value_of q p = value_of q' p.
Proof. intros H. unfold value_of. by rewrite H. Qed.

Lemma fifo_push_available q v ps gs :
  pending q = [] → fifo q ps gs → fifo (push_available v q) (ps ++ [v]) gs.
Proof.
  intros Hp (gd & pd & pa & -> & Ha & -> & Hv & Hx & Hnd & Hc).
  exists gd, pd, (pa ++ [v]).
  unfold exclusive, available, pending in *. simpl.
  rewrite Ha, Hp, fmap_app, app_assoc. repeat split; try done.
  - by right.
  - apply NoDup_nil_2.
  - intros r Hr. by apply elem_of_nil in Hr.
Qed.

Lemma fifo_put q v ps gs : fifo q ps gs → fifo (put v q) (ps ++ [v]) gs.
Proof.
  intros Hq. unfold put.
  destruct (_pending q) as [[|r p']|] eqn:Hp; simpl;
    try (apply fifo_push_available; [by unfold pending; rewrite Hp|done]).
  destruct Hq as (gd & pd & pa & -> & Ha & -> & Hv & Hx & Hnd & Hc).
  unfold exclusive, available, pending in *. rewrite Hp in *. simpl in *.
  assert (pa = []) as ->.
  { destruct Hx as [Hx|Hx]; [|done]. rewrite Hx in Ha. by destruct pa. }
  pose proof (Hc r (list_elem_of_here _ _)) as Hr.
  apply NoDup_cons in Hnd as [Hr' Hnd].
  exists (gd ++ [PromiseNew r]), (pd ++ [v]), [].
  rewrite !app_nil_r, <- !app_assoc. simpl. repeat split; try done.
  - rewrite !fmap_app. simpl. f_equal.
    + rewrite <- Hv. apply list_fmap_ext. intros i [v'|r'] Hi; [done|].
      simpl. destruct (decide (r' = r)) as [->|Hne].
      * apply (f_equal (lookup i)) in Hv.
        rewrite !list_lookup_fmap, Hi in Hv. simpl in Hv.
        rewrite Hr in Hv. simpl in Hv. by destruct (pd !! i).
      * by rewrite list_lookup_insert_ne.
    + rewrite list_lookup_insert_eq; [done|]. by eapply lookup_lt_Some.
  - by left.
  - intros r' Hr''. rewrite list_lookup_insert_ne; [|intros ->; done].
    apply Hc. by right.
Qed.

Lemma fifo_push_pending q ps gs :
  available q = [] → fifo q ps gs →
  fifo (push_pending q).2 ps (gs ++ [(push_pending q).1]).
Proof.
  intros Hp (gd & pd & pa & -> & Ha & -> & Hv & Hx & Hnd & Hc).
  exists gd, pd, pa.
  unfold exclusive, available, pending in *. simpl.
  rewrite Ha, fmap_app, app_assoc. repeat split; try done.
  - rewrite <- Hv. apply list_fmap_ext. intros i [v'|r'] Hi; [done|].
    simpl. apply (f_equal (lookup i)) in Hv.
    rewrite !list_lookup_fmap, Hi in Hv. simpl in Hv.
    destruct (cells q !! r') eqn:Hr'.
    + by rewrite (lookup_app_l_Some _ _ _ _ Hr').
    + by destruct (pd !! i).
  - left. congruence.
  - apply NoDup_app. repeat split; [done| |apply NoDup_singleton].
    intros r Hr ->%list_elem_of_singleton. apply Hc in Hr.
    apply lookup_lt_Some in Hr. lia.
  - intros r [Hr| ->%list_elem_of_singleton]%elem_of_app.
    + apply lookup_app_l_Some. auto.
    + by rewrite lookup_app_r, Nat.sub_diag.
Qed.

Lemma fifo_get q ps gs : fifo q ps gs → fifo (get q).2 ps (gs ++ [(get q).1]).
Proof.
  intros Hq. unfold get.
  destruct (_available q) as [[|p a']|] eqn:Hp; simpl;
    try (apply fifo_push_pending; [by unfold available; rewrite Hp|done]).
  destruct Hq as (gd & pd & pa & -> & Ha & -> & Hv & Hx & Hnd & Hc).
  unfold exclusive, available, pending in *. rewrite Hp in *. simpl in *.
  destruct Hx as [|Hx]; [done|]. rewrite Hx in *.
  destruct pa as [|v pa]; [done|]. injection Ha as -> ->.
  exists (gd ++ [PromiseResolve v]), (pd ++ [v]), pa.
  unfold exclusive, available, pending. simpl. rewrite Hx.
  rewrite <- !app_assoc. simpl. repeat split; try done.
  - rewrite !fmap_app. simpl. f_equal. rewrite <- Hv.
    apply list_fmap_ext. intros ???. by apply value_of_cells.
  - by right.
Qed.

Lemma run_get ops q :
  run (Get :: ops) q =
  ((run ops (get q).2).1, (get q).1 :: (run ops (get q).2).2).
Proof. simpl. destruct (get q) as [p q']. simpl. by destruct (run ops q'). Qed.

Lemma fifo_run ops q ps gs :
  fifo q ps gs →
  fifo (run ops q).1 (ps ++ puts ops) (gs ++ (run ops q).2).
Proof.
  revert q ps gs. induction ops as [|[v|] ops IH]; intros q ps gs Hq.
  - simpl. by rewrite !app_nil_r.
  - simpl. replace (ps ++ v :: puts ops) with ((ps ++ [v]) ++ puts ops)
      by (by rewrite <- app_assoc).
    by apply IH, fifo_put.
  - rewrite run_get. simpl. rewrite (cons_middle _ gs), app_assoc.
    by apply IH, fifo_get.
Qed.

Lemma fifo_rendezvous q ps gs k v p :
  fifo q ps gs → ps !! k = Some v → gs !! k = Some p →
  value_of q p = Some v.
Proof.
  intros (gd & pd & pa & -> & Ha & -> & Hv & Hx & _) Hk Hg.
  assert (length gd = length pd) as Hlen.
  { apply (f_equal length) in Hv. by rewrite !length_fmap in Hv. }
  destruct (decide (k < length gd)%nat) as [Hlt|Hge].
  - rewrite lookup_app_l in Hk by lia. rewrite lookup_app_l in Hg by lia.
    apply (f_equal (lookup k)) in Hv.
    rewrite !list_lookup_fmap, Hk, Hg in Hv. simpl in Hv. congruence.
  - rewrite lookup_app_r in Hk by lia. rewrite lookup_app_r in Hg by lia.
    destruct Hx as [Hx|Hx].
    + rewrite Hx in Ha. destruct pa; [|done]. by rewrite lookup_nil in Hk.
    + rewrite Hx in Hg. simpl in Hg. by rewrite lookup_nil in Hg.
Qed.

(** C8: on a queue made without initial values, the k-th [get] is
    settled with the value of the k-th [put], however the calls are
    interleaved. *)
Theorem queue_fifo ops k v p :
  puts ops !! k = Some v →
  (run ops (constructor None)).2 !! k = Some p →
  value_of (run ops (constructor None)).1 p = Some v.
Proof.
  apply fifo_rendezvous.
  apply (fifo_run ops _ [] []), (fifo_constructor None).
Qed.

End AsyncQueueFacts.

(** [queue_fifo] on a queue of numbers: the first [get] finds the queue
    empty and is served by the first [put]. *)
Lemma queue_fifo_witness :
  AsyncQueue.value_of
    (AsyncQueue.run
       [AsyncQueue.Get; AsyncQueue.Put 5%nat; AsyncQueue.Put 6%nat;
        AsyncQueue.Get] (AsyncQueue.constructor None)).1
    (AsyncQueue.PromiseNew 0)
  = Some 5%nat.
Proof.
  apply (queue_fifo
           [AsyncQueue.Get; AsyncQueue.Put 5%nat; AsyncQueue.Put 6%nat;
            AsyncQueue.Get] 0%nat); reflexivity.
Defined.

(** * Properties of ReaderWriterLock *)

Section ReaderWriterLockFacts.
Import ReaderWriterLock.

(** ** Frame lemmas: what each primitive leaves alone *)

Lemma settle_queue p r s q : queue q (settle p r s) = queue q s.
Proof. unfold settle. repeat case_match; by destruct q. Qed.

Lemma settle_handles p r s : handles (settle p r s) = handles s.
Proof. unfold settle. by repeat case_match. Qed.

Lemma settle_count p r s : _count (settle p r s) = _count s.
Proof. unfold settle. by repeat case_match. Qed.

Lemma settle_upgradeable p r s : _upgradeable (settle p r s) = _upgradeable s.
Proof. unfold settle. by repeat case_match. Qed.

Lemma settle_upgraded p r s : _upgraded (settle p r s) = _upgraded s.
Proof. unfold settle. by repeat case_match. Qed.

Lemma settle_cancellationRequested p r s :
  cancellationRequested (settle p r s) = cancellationRequested s.
Proof. unfold settle. by repeat case_match. Qed.

Lemma settle_registrations p r s :
  registrations (settle p r s) = registrations s.
Proof. unfold settle. by repeat case_match. Qed.

Lemma settle_promises_length p r s :
  length (promises (settle p r s)) = length (promises s).
Proof. unfold settle. repeat case_match; simpl; by rewrite ?length_insert. Qed.

Lemma settle_promises_ne p r s p' :
  p' ≠ p → promises (settle p r s) !! p' = promises s !! p'.
Proof.
  intros Hne. unfold settle. repeat case_match; simpl; try done.
  by apply list_lookup_insert_ne.
Qed.

Lemma settle_promises_eq p r s q :
  promises s !! p = Some (q, Unsettled) →
  promises (settle p r s) !! p = Some (q, r).
Proof.
  intros Hp. unfold settle. rewrite Hp. simpl.
  apply list_lookup_insert_eq. by eapply lookup_lt_Some.
Qed.

Lemma settle_settled p r s q r0 :
  promises s !! p = Some (q, r0) → r0 ≠ Unsettled → settle p r s = s.
Proof. intros Hp Hr. unfold settle. rewrite Hp. by destruct r0. Qed.

Lemma take_hold q s : (take q s).1 = length (handles s).
Proof. by destruct q. Qed.

Lemma take_handles q s : handles (take q s).2 = handles s ++ [new_handle q].
Proof. by destruct q. Qed.

Lemma take_queue q s q' : queue q' (take q s).2 = queue q' s.
Proof. by destruct q, q'. Qed.

Lemma take_promises q s : promises (take q s).2 = promises s.
Proof. by destruct q. Qed.

Lemma take_cancellationRequested q s :
  cancellationRequested (take q s).2 = cancellationRequested s.
Proof. by destruct q. Qed.

Lemma take_registrations q s : registrations (take q s).2 = registrations s.
Proof. by destruct q. Qed.

Lemma is_cancelled_ext token s s' :
  cancellationRequested s = cancellationRequested s' →
  is_cancelled token s = is_cancelled token s'.
Proof. intros H. unfold is_cancelled. by rewrite H. Qed.

Lemma set_queue_queue q l s : queue q (set_queue q l s) = l.
Proof. by destruct q. Qed.

Lemma set_queue_queue_ne q q' l s :
  q ≠ q' → queue q' (set_queue q l s) = queue q' s.
Proof. by destruct q, q'. Qed.

(** The scheduler's closure, without the pattern on the pair. *)
Lemma resolver_unfold q w s :
  resolver q w s =
  if is_cancelled (w_token w) s
  then settle (w_promise w) (Rejected CancelError) (unregister w s)
  else settle (w_promise w) (Resolved (length (handles s)))
         (take q (unregister w s)).2.
Proof.
  unfold resolver. rewrite <- (is_cancelled_ext _ s) by done.
  destruct (is_cancelled _ s); [done|].
  pose proof (take_hold q (unregister w s)) as Hh.
  destruct (take q (unregister w s)) as [hold s']. simpl in *. by subst.
Qed.

Lemma resolver_queue q w s q' : queue q' (resolver q w s) = queue q' s.
Proof.
  rewrite resolver_unfold. destruct (is_cancelled _ s);
    rewrite settle_queue, ?take_queue; by destruct q'.
Qed.

Lemma resolver_cancellationRequested q w s :
  cancellationRequested (resolver q w s) = cancellationRequested s.
Proof.
  rewrite resolver_unfold. destruct (is_cancelled _ s);
    by rewrite settle_cancellationRequested, ?take_cancellationRequested.
Qed.

Lemma resolver_promises_length q w s :
  length (promises (resolver q w s)) = length (promises s).
Proof.
  rewrite resolver_unfold. destruct (is_cancelled _ s);
    by rewrite settle_promises_length, ?take_promises.
Qed.

Lemma resolver_promises_ne q w s p :
  p ≠ w_promise w → promises (resolver q w s) !! p = promises s !! p.
Proof.
  intros Hne. rewrite resolver_unfold. destruct (is_cancelled _ s);
    by rewrite settle_promises_ne, ?take_promises.
Qed.

(** The promise of a woken waiter: rejected when its token was cancelled
    in the meantime, resolved with the new handle otherwise. *)
Lemma resolver_promises_eq q w s :
  promises s !! w_promise w = Some (q, Unsettled) →
  promises (resolver q w s) !! w_promise w =
  Some (q, if is_cancelled (w_token w) s then Rejected CancelError
           else Resolved (length (handles s))).
Proof.
  intros Hp. rewrite resolver_unfold. destruct (is_cancelled _ s);
    apply settle_promises_eq; by rewrite ?take_promises.
Qed.

(** ** The census is an invariant *)

Lemma census_ext s s' :
  handles s' = handles s → _count s' = _count s →
  _upgradeable s' = _upgradeable s → _upgraded s' = _upgraded s →
  census s → census s'.
Proof.
  intros Hh Hc Hu Hg [];
    [apply census_shared|apply census_writer|apply census_upgraded];
    unfold writers_in, readers_in in *; by rewrite ?Hh, ?Hc, ?Hu, ?Hg.
Qed.

Lemma sum_list_with_insert {A} (f : A → nat) (l : list A) i x y :
  l !! i = Some x →
  (sum_list_with f (<[i := y]> l) + f x = sum_list_with f l + f y)%nat.
Proof.
  revert i. induction l as [|a l IH]; intros [|i] Hi; simplify_eq/=.
  - lia.
  - specialize (IH _ Hi). lia.
Qed.

Lemma census_new_lock : census new_lock.
Proof. by apply census_shared. Qed.

Lemma can_take_admits q s : canTake q s = true → admits q s.
Proof.
  destruct q; simpl;
    unfold _canTakeReadLock, _canTakeUpgradeableReadLock,
      _canTakeUpgradeLock, _canTakeWriteLock;
    rewrite ?andb_true_iff, ?negb_true_iff;
    destruct (_upgradeable s), (_upgraded s); simpl;
    intuition (try done; try lia; eauto).
Qed.

Lemma census_nonneg s : census s → 0 ≤ _count s → _upgraded s = None ∧
  writers_in s = 0 ∧
  _count s = readers_in s + (if truthy (_upgradeable s) then 1 else 0).
Proof. intros [] ?; auto; lia. Qed.

Lemma census_take q s : admits q s → census s → census (take q s).2.
Proof.
  intros Ha Hc.
  assert (0 ≤ _count s) as Hn by (destruct q; simpl in Ha; lia).
  destruct (census_nonneg s Hc Hn) as (Hg & Hw & Hcount).
  unfold writers_in, readers_in in *.
  destruct q; simpl in Ha.
  - apply census_shared; unfold writers_in, readers_in; simpl;
      rewrite ?sum_list_with_app; simpl; try done; lia.
  - destruct Ha as [_ Hu]. rewrite Hu in Hcount.
    apply census_shared; unfold writers_in, readers_in; simpl;
      rewrite ?sum_list_with_app; simpl; try done; simpl in *; lia.
  - destruct Ha as (Hone & [u Hu] & _). rewrite Hu in Hcount.
    apply census_upgraded; unfold writers_in, readers_in; simpl;
      rewrite ?sum_list_with_app; simpl in *; try done; try lia; eauto.
  - destruct (_upgradeable s) eqn:Hu; simpl in Hcount; [lia|].
    apply census_writer; unfold writers_in, readers_in; simpl;
      rewrite ?sum_list_with_app; simpl; try done; lia.
Qed.

Lemma admits_ext q s s' :
  _count s' = _count s → _upgradeable s' = _upgradeable s →
  _upgraded s' = _upgraded s → admits q s → admits q s'.
Proof. intros Hc Hu Hg. destruct q; simpl; by rewrite Hc, ?Hu, ?Hg. Qed.

Lemma census_resolver q w s : admits q s → census s → census (resolver q w s).
Proof.
  intros Ha Hc. rewrite resolver_unfold. destruct (is_cancelled _ s).
  - revert Hc. apply census_ext;
      by rewrite ?settle_handles, ?settle_count, ?settle_upgradeable,
        ?settle_upgraded.
  - apply (census_ext (take q (unregister w s)).2);
      rewrite ?settle_handles, ?settle_count, ?settle_upgradeable,
        ?settle_upgraded; try done.
    apply census_take; [revert Ha; by apply admits_ext|].
    revert Hc. by apply census_ext.
Qed.

Lemma resolver_reader_count w s : _count s ≤ _count (resolver Reader w s).
Proof.
  rewrite resolver_unfold. destruct (is_cancelled _ s);
    rewrite settle_count; simpl; lia.
Qed.

Lemma census_readers l s :
  census s → 0 ≤ _count s →
  census (foldl (λ s w, resolver Reader w s) s l).
Proof.
  revert s. induction l as [|w l IH]; intros s Hc Hn; simpl; [done|].
  apply IH; [by apply census_resolver|].
  pose proof (resolver_reader_count w s). lia.
Qed.

Lemma census_processWrite s :
  census s → census (_processWriteLockRequest s).2.
Proof.
  intros Hc. unfold _processWriteLockRequest.
  destruct (_canTakeWriteLock s) eqn:Hcan; [|done].
  destruct (_writers s) as [|w ws]; [done|]. simpl.
  apply census_resolver; [|revert Hc; by apply census_ext].
  apply (can_take_admits Writer) in Hcan. revert Hcan. by apply admits_ext.
Qed.

Lemma census_processUpgrade s :
  census s → census (_processUpgradeRequest s).2.
Proof.
  intros Hc. unfold _processUpgradeRequest.
  destruct (_canTakeUpgradeLock s) eqn:Hcan; [|done].
  destruct (_upgrades s) as [|w ws]; [done|]. simpl.
  apply census_resolver; [|revert Hc; by apply census_ext].
  apply (can_take_admits Upgrader) in Hcan. revert Hcan. by apply admits_ext.
Qed.

Lemma census_processUpgradeable s :
  census s → census (_processUpgradeableReadLockRequest s).
Proof.
  intros Hc. unfold _processUpgradeableReadLockRequest.
  destruct (_canTakeUpgradeableReadLock s) eqn:Hcan; [|done].
  destruct (_upgradeables s) as [|w ws]; [done|].
  apply census_resolver; [|revert Hc; by apply census_ext].
  apply (can_take_admits UpgradeableReader) in Hcan.
  revert Hcan. by apply admits_ext.
Qed.

Lemma census_processRead s :
  census s → census (_processReadLockRequests s).
Proof.
  intros Hc. unfold _processReadLockRequests.
  destruct (_canTakeReadLock s) eqn:Hcan; [|done].
  apply (can_take_admits Reader) in Hcan.
  apply (census_ext (foldl (λ s w, resolver Reader w s) s (_readers s)));
    try done.
  by apply census_readers.
Qed.

Lemma census_scheduling_states s s' :
  census s → s' ∈ scheduling_states s → census s'.
Proof.
  intros Hc. unfold scheduling_states.
  pose proof (census_processWrite s Hc) as H1.
  destruct (_processWriteLockRequest s) as [woke1 s1]. simpl in H1.
  pose proof (census_processUpgrade s1 H1) as H2.
  destruct (_processUpgradeRequest s1) as [woke2 s2]. simpl in H2.
  pose proof (census_processUpgradeable s2 H2) as H3.
  pose proof (census_processRead _ H3) as H4.
  destruct woke1; [|destruct woke2];
    rewrite ?elem_of_cons, elem_of_nil; intuition congruence.
Qed.

(** The scheduler ends in the last of the states it goes through. *)
Lemma scheduling_states_last s :
  last (scheduling_states s) = Some (_processLockRequests s).
Proof.
  unfold scheduling_states, _processLockRequests.
  destruct (_processWriteLockRequest s) as [[] s1]; [done|].
  by destruct (_processUpgradeRequest s1) as [[] s2].
Qed.

Lemma census_processLockRequests s :
  census s → census (_processLockRequests s).
Proof.
  intros Hc. apply (census_scheduling_states s); [done|].
  pose proof (scheduling_states_last s) as Hl.
  apply last_Some in Hl as [l ->].
  rewrite elem_of_app, list_elem_of_singleton. by right.
Qed.

(** [release] is the entry state followed by the scheduler. *)
Lemma release_scheduling hold s s' :
  release hold s = Return s' ↔
  ∃ s1, scheduling_entry hold s = Some s1 ∧ s' = _processLockRequests s1.
Proof.
  unfold release, scheduling_entry, _releaseReadLock,
    _releaseUpgradeableReadLock, _releaseUpgradeLock, _releaseWriteLock.
  destruct (handles s !! hold) as [[[]| | |[]]|]; repeat case_bool_decide;
    (split; [intros Hr|intros (s1 & He & ->)]); simplify_eq; try done;
    try (eexists; split; [done|]); simpl; try done;
    by destruct (_count s =? -1).
Qed.

Lemma census_scheduling_entry hold s s1 :
  census s → scheduling_entry hold s = Some s1 → census s1.
Proof.
  intros Hc. unfold scheduling_entry.
  destruct (handles s !! hold) as [[[]| | |[]]|] eqn:Hh; try done;
    repeat case_bool_decide; try done; intros [= <-].
  - pose proof (sum_list_with_insert live_read _ _ _ (ReadHandle true) Hh).
    pose proof (sum_list_with_insert live_write _ _ _ (ReadHandle true) Hh).
    destruct Hc; unfold readers_in, writers_in in *; simpl in *;
      [|lia|lia].
    apply census_shared; unfold readers_in, writers_in; simpl; try done; lia.
  - destruct Hc as [Hg Hw Hcount| |? ? ? ? ?].
    + rewrite H in Hcount. simpl in Hcount.
      assert ((_count s =? -1) = false) as ->
          by (unfold readers_in in *; lia).
      apply census_shared; unfold readers_in, writers_in in *; simpl;
        try done; lia.
    + congruence.
    + assert ((_count s =? -1) = true) as -> by lia.
      apply census_shared; unfold readers_in, writers_in in *; simpl;
        try done; lia.
  - destruct Hc as [| |? ? ? [u Hu] ?]; try congruence.
    apply census_shared; unfold readers_in, writers_in in *; simpl;
      try done. rewrite Hu. simpl. lia.
  - pose proof (sum_list_with_insert live_read _ _ _ (WriteHandle true) Hh).
    pose proof (sum_list_with_insert live_write _ _ _ (WriteHandle true) Hh).
    destruct Hc as [| |? ? ? [u Hu] ?]; unfold readers_in, writers_in in *;
      simpl in *; [lia| |lia].
    apply census_shared; unfold readers_in, writers_in; simpl; try done.
    + lia.
    + rewrite H4. simpl. lia.
Qed.

Lemma census_release hold s s' :
  census s → release hold s = Return s' → census s'.
Proof.
  intros Hc (s1 & He & ->)%release_scheduling.
  eauto using census_processLockRequests, census_scheduling_entry.
Qed.

Lemma census_request q token s : census s → census (request q token s).2.
Proof.
  intros Hc. unfold request.
  set (s0 := set_promises _ s).
  assert (census s0) as Hc0 by (revert Hc; by apply census_ext).
  destruct (is_cancelled token s0); simpl.
  { revert Hc0. apply census_ext;
      by rewrite ?settle_handles, ?settle_count, ?settle_upgradeable,
        ?settle_upgraded. }
  destruct (canTake q s0) eqn:Hcan.
  - apply can_take_admits in Hcan.
    pose proof (census_take q s0 Hcan Hc0) as Ht.
    destruct (take q s0) as [hold s1]. simpl in *.
    revert Ht. apply census_ext;
      by rewrite ?settle_handles, ?settle_count, ?settle_upgradeable,
        ?settle_upgraded.
  - simpl. revert Hc0. apply census_ext; by destruct q.
Qed.

Lemma upgrade_Return hold token s r :
  upgrade hold token s = Return r →
  _upgradeable s = Some hold ∧ r = request Upgrader token s.
Proof.
  unfold upgrade. repeat case_match; try done.
  case_bool_decide; by intros [= <-].
Qed.

Lemma census_notify p s : census s → census (notify p s).
Proof.
  intros Hc. unfold notify. destruct (list_find _ _) as [[i [q w]]|]; [|done].
  destruct (is_cancelled _ s); [|done]. unfold on_cancel.
  destruct (on_list _ _); [|revert Hc; by apply census_ext].
  revert Hc. apply census_ext;
    rewrite ?settle_handles, ?settle_count, ?settle_upgradeable,
      ?settle_upgraded; by destruct q.
Qed.

Lemma census_step o s : census s → census (step o s).
Proof.
  intros Hc. destruct o as [t|t|t|hold t|hold|t|p]; simpl.
  - by apply census_request.
  - by apply census_request.
  - by apply census_request.
  - destruct (upgrade hold t s) as [[p s']|] eqn:Hu; [|done].
    apply upgrade_Return in Hu as [_ Hu].
    change s' with (p, s').2. rewrite Hu. by apply census_request.
  - destruct (release hold s) eqn:Hr; [|done]. by eapply census_release.
  - revert Hc. by apply census_ext.
  - by apply census_notify.
Qed.

Lemma census_run ops s : census s → census (run ops s).
Proof.
  revert s. induction ops as [|o ops IH]; intros s Hc; [done|].
  apply IH. by apply census_step.
Qed.

Lemma census_boundary s : boundary s → census s.
Proof.
  intros [ops|ops hold s1 s2 He Hs].
  - apply census_run, census_new_lock.
  - eapply census_scheduling_states; [|done].
    eapply census_scheduling_entry; [|done].
    apply census_run, census_new_lock.
Qed.

(** C3: at every boundary of an operation, [_upgraded] is only set
    together with [_upgradeable], and then [_count] is [-1]. *)
Theorem upgraded_implies_upgradeable s :
  boundary s → is_Some (_upgraded s) →
  is_Some (_upgradeable s) ∧ _count s = -1.
Proof.
  intros Hb%census_boundary [g Hg]. destruct Hb; [congruence|congruence|done].
Qed.

(** ** Handles are minted once and never come back *)

Lemma extends_refl s : extends s s.
Proof. repeat split; auto. Qed.

Lemma extends_trans s1 s2 s3 : extends s1 s2 → extends s2 s3 → extends s1 s3.
Proof.
  intros (Hp1 & Hu1 & Hg1) (Hp2 & Hu2 & Hg2).
  pose proof (prefix_length _ _ Hp1) as Hlen.
  split; [by etrans|]. split.
  - intros u [Hu|Hu]%Hu2; [auto|right; lia].
  - intros g [Hg|Hg]%Hg2; [auto|right; lia].
Qed.

Lemma extends_ext s s' :
  handles s' = handles s →
  _upgradeable s' = _upgradeable s ∨ _upgradeable s' = None →
  _upgraded s' = _upgraded s ∨ _upgraded s' = None →
  extends s s'.
Proof.
  intros Hh Hu Hg. split; [by rewrite Hh|].
  split; intros x Hx; left; intuition congruence.
Qed.

Lemma extends_take q s : extends s (take q s).2.
Proof.
  split; [rewrite take_handles; by apply prefix_app_r|].
  destruct q; simpl; split; intros x Hx; simplify_eq; auto.
Qed.

Lemma extends_settle p r s : extends s (settle p r s).
Proof.
  apply extends_ext;
    rewrite ?settle_handles, ?settle_upgradeable, ?settle_upgraded; auto.
Qed.

Lemma extends_resolver q w s : extends s (resolver q w s).
Proof.
  rewrite resolver_unfold. destruct (is_cancelled _ s).
  - eapply extends_trans; [|apply extends_settle]. by apply extends_ext; auto.
  - eapply extends_trans; [|apply extends_settle].
    eapply extends_trans; [|apply extends_take]. by apply extends_ext; auto.
Qed.

Lemma extends_readers l s :
  extends s (foldl (λ s w, resolver Reader w s) s l).
Proof.
  revert s. induction l as [|w l IH]; intros s; simpl;
    [apply extends_refl|].
  eapply extends_trans; [apply extends_resolver|apply IH].
Qed.

Lemma extends_processWrite s : extends s (_processWriteLockRequest s).2.
Proof.
  unfold _processWriteLockRequest. repeat case_match; simpl;
    try apply extends_refl.
  eapply extends_trans; [|apply extends_resolver]. by apply extends_ext; auto.
Qed.

Lemma extends_processUpgrade s : extends s (_processUpgradeRequest s).2.
Proof.
  unfold _processUpgradeRequest. repeat case_match; simpl;
    try apply extends_refl.
  eapply extends_trans; [|apply extends_resolver]. by apply extends_ext; auto.
Qed.

Lemma extends_processUpgradeable s :
  extends s (_processUpgradeableReadLockRequest s).
Proof.
  unfold _processUpgradeableReadLockRequest. repeat case_match; simpl;
    try apply extends_refl.
  eapply extends_trans; [|apply extends_resolver]. by apply extends_ext; auto.
Qed.

Lemma extends_processRead s : extends s (_processReadLockRequests s).
Proof.
  unfold _processReadLockRequests. case_match; [|apply extends_refl].
  eapply extends_trans; [apply extends_readers|]. by apply extends_ext; auto.
Qed.

Lemma extends_processLockRequests s : extends s (_processLockRequests s).
Proof.
  unfold _processLockRequests.
  pose proof (extends_processWrite s) as H1.
  destruct (_processWriteLockRequest s) as [[] s1]; [done|]. simpl in H1.
  pose proof (extends_processUpgrade s1) as H2.
  destruct (_processUpgradeRequest s1) as [[] s2]; simpl in H2;
    [by eapply extends_trans|].
  eauto using extends_trans, extends_processUpgradeable, extends_processRead.
Qed.

Lemma extends_request q token s : extends s (request q token s).2.
Proof.
  unfold request. set (s0 := set_promises _ s).
  assert (extends s s0) as H0 by (by apply extends_ext; auto).
  destruct (is_cancelled token s0); simpl.
  { eauto using extends_trans, extends_settle. }
  destruct (canTake q s0).
  - pose proof (extends_take q s0) as Ht.
    destruct (take q s0) as [hold s1]. simpl in *.
    eauto using extends_trans, extends_settle.
  - simpl. eapply extends_trans; [done|].
    apply extends_ext; destruct q; auto.
Qed.

Lemma extends_notify p s : extends s (notify p s).
Proof.
  unfold notify. destruct (list_find _ _) as [[i [q w]]|];
    [|apply extends_refl].
  destruct (is_cancelled _ s); [|apply extends_refl]. unfold on_cancel.
  destruct (on_list _ _); [|by apply extends_ext; auto].
  eapply extends_trans; [|apply extends_settle].
  apply extends_ext; destruct q; auto.
Qed.

(** A spent handle stays spent. *)
Lemma spent_extends hold s s' : extends s s' → spent hold s → spent hold s'.
Proof.
  intros (Hp & Hu & Hg). unfold spent.
  destruct (handles s !! hold) as [x|] eqn:Hx; [|done].
  rewrite (prefix_lookup_Some _ _ _ _ Hx Hp).
  apply lookup_lt_Some in Hx.
  destruct x; try done.
  - intros Hne [?|?]%Hu; [done|lia].
  - intros Hne [?|?]%Hg; [done|lia].
Qed.

Lemma spent_scheduling_entry h hold s s1 :
  scheduling_entry hold s = Some s1 → spent h s → spent h s1.
Proof.
  unfold scheduling_entry, spent.
  destruct (handles s !! hold) as [[[]| | |[]]|] eqn:Hh; try done;
    repeat case_bool_decide; try done; intros [= <-]; simpl.
  - destruct (decide (h = hold)) as [->|Hne].
    + rewrite Hh, list_lookup_insert_eq; [done|by eapply lookup_lt_Some].
    + by rewrite list_lookup_insert_ne.
  - destruct (_count s =? -1); simpl;
      destruct (handles s !! h) as [[]|]; try done.
  - by destruct (handles s !! h) as [[]|].
  - destruct (decide (h = hold)) as [->|Hne].
    + rewrite Hh, list_lookup_insert_eq; [done|by eapply lookup_lt_Some].
    + by rewrite list_lookup_insert_ne.
Qed.

Lemma spent_step h o s : spent h s → spent h (step o s).
Proof.
  intros Hs. destruct o as [t|t|t|hold t|hold|t|p]; simpl.
  - revert Hs. apply spent_extends, extends_request.
  - revert Hs. apply spent_extends, extends_request.
  - revert Hs. apply spent_extends, extends_request.
  - destruct (upgrade hold t s) as [[p s']|] eqn:Hu; [|done].
    apply upgrade_Return in Hu as [_ Hu].
    change s' with (p, s').2. rewrite Hu.
    revert Hs. apply spent_extends, extends_request.
  - destruct (release hold s) eqn:Hr; [|done].
    apply release_scheduling in Hr as (s1 & He & ->).
    eapply spent_extends; [apply extends_processLockRequests|].
    by eapply spent_scheduling_entry.
  - done.
  - revert Hs. apply spent_extends, extends_notify.
Qed.

Lemma spent_run h ops s : spent h s → spent h (run ops s).
Proof.
  revert s. induction ops as [|o ops IH]; intros s Hs; [done|].
  by apply IH, spent_step.
Qed.

Lemma spent_release hold s :
  spent hold s → release hold s = Throw LockAlreadyReleased.
Proof.
  unfold spent, release.
  destruct (handles s !! hold) as [[[]| | |[]]|]; try done;
    intros Hne; by rewrite bool_decide_eq_false_2.
Qed.

(** A handle still in use is only changed by its own [release]. *)
Lemma step_handles_ne o s h x :
  o ≠ Release h → handles s !! h = Some x → handles (step o s) !! h = Some x.
Proof.
  intros Ho Hx.
  assert (∀ s', extends s s' → handles s' !! h = Some x) as Hext.
  { intros s' (Hp & _). by eapply prefix_lookup_Some. }
  destruct o as [t|t|t|hold t|hold|t|p]; simpl.
  - apply Hext, extends_request.
  - apply Hext, extends_request.
  - apply Hext, extends_request.
  - destruct (upgrade hold t s) as [[p s']|] eqn:Hu; [|done].
    apply upgrade_Return in Hu as [_ Hu].
    change s' with (p, s').2. rewrite Hu. apply Hext, extends_request.
  - destruct (release hold s) eqn:Hr; [|done].
    apply release_scheduling in Hr as (s1 & He & ->).
    destruct (extends_processLockRequests s1) as (Hp & _).
    eapply prefix_lookup_Some; [|done].
    assert (h ≠ hold) as Hne by congruence.
    revert He. unfold scheduling_entry.
    repeat case_match; try done; intros [= <-]; simpl; try done;
      by rewrite list_lookup_insert_ne.
  - done.
  - apply Hext, extends_notify.
Qed.

Lemma run_handles_ne ops s h x :
  Release h ∉ ops → handles s !! h = Some x →
  handles (run ops s) !! h = Some x.
Proof.
  revert s. induction ops as [|o ops IH]; intros s Hn Hx; [done|].
  apply not_elem_of_cons in Hn as [Ho Hn].
  apply IH; [done|]. apply step_handles_ne; [congruence|done].
Qed.

Lemma release_live hold s :
  handles s !! hold = Some (ReadHandle false) ∨
  handles s !! hold = Some (WriteHandle false) →
  ∃ s', release hold s = Return s' ∧ spent hold s'.
Proof.
  intros Hl.
  assert (∃ s1, scheduling_entry hold s = Some s1 ∧ spent hold s1)
    as (s1 & He & Hs).
  { unfold scheduling_entry, spent.
    destruct Hl as [Hl|Hl]; rewrite Hl; eexists; (split; [done|]); simpl;
      rewrite list_lookup_insert_eq; try done; by eapply lookup_lt_Some. }
  exists (_processLockRequests s1). split.
  - apply release_scheduling. eauto.
  - revert Hs. apply spent_extends, extends_processLockRequests.
Qed.

(** C6: a read or write handle releases once.  Whatever else happens to
    the lock before and after, the first [release()] of the handle
    succeeds and every later one throws "Lock already released.". *)
Theorem release_only_once q s ops1 :
  q = Reader ∨ q = Writer →
  let hold := (take q s).1 in
  Release hold ∉ ops1 →
  ∃ s', release hold (run ops1 (take q s).2) = Return s' ∧
        ∀ ops2, release hold (run ops2 s') = Throw LockAlreadyReleased.
Proof.
  intros Hq hold Hn.
  destruct (release_live hold (run ops1 (take q s).2)) as (s' & Hr & Hs).
  { assert (handles (take q s).2 !! hold = Some (new_handle q)) as Hh.
    { unfold hold. rewrite take_hold, take_handles.
      by rewrite lookup_app_r, Nat.sub_diag. }
    destruct Hq as [-> | ->]; [left|right]; by apply run_handles_ne. }
  exists s'. split; [done|]. intros ops2. by apply spent_release, spent_run.
Qed.

(** C9: releasing the upgradeable handle while upgraded uses up the
    handle of the upgrade as well. *)
Theorem upgraded_handle_invalidated s u g :
  handles s !! u = Some UpgradeableHandle →
  handles s !! g = Some UpgradeHandle →
  _upgradeable s = Some u →
  _upgraded s = Some g →
  ∃ s', release u s = Return s' ∧
        ∀ ops, release g (run ops s') = Throw LockAlreadyReleased.
Proof.
  intros Hu Hg Hsu Hsg.
  assert (∃ s1, scheduling_entry u s = Some s1 ∧ spent g s1)
    as (s1 & He & Hs).
  { unfold scheduling_entry, spent. rewrite Hu, bool_decide_eq_true_2 by done.
    eexists. split; [done|]. simpl.
    destruct (_count s =? -1); simpl; by rewrite Hg. }
  exists (_processLockRequests s1). split.
  - apply release_scheduling. eauto.
  - intros ops. apply spent_release, spent_run.
    revert Hs. apply spent_extends, extends_processLockRequests.
Qed.

(** ** The queues stay well formed *)

Lemma queues_wf_new_lock : queues_wf new_lock.
Proof.
  intros q. destruct q; simpl; (split; [apply NoDup_nil_2|]);
    intros w Hw; by apply elem_of_nil in Hw.
Qed.

Lemma queues_wf_lt s q w :
  queues_wf s → w ∈ queue q s → (w_promise w < length (promises s))%nat.
Proof. intros Hwf Hw. eapply lookup_lt_Some. by apply Hwf. Qed.

(** Two parked requests with one promise are the same request. *)
Lemma queues_wf_same_role s q q' w w' :
  queues_wf s → w ∈ queue q s → w' ∈ queue q' s →
  w_promise w = w_promise w' → q = q'.
Proof.
  intros Hwf Hw Hw' Heq. apply Hwf in Hw. apply Hwf in Hw'. congruence.
Qed.

(** A state that differs from a well-formed one by shorter queues and by
    promises that were not parked. *)
Lemma queues_wf_shrink s s' :
  queues_wf s →
  (∀ q, queue q s' `sublist_of` queue q s) →
  (∀ q w, w ∈ queue q s' → promises s' !! w_promise w = promises s !! w_promise w) →
  queues_wf s'.
Proof.
  intros Hwf Hsub Hp q. destruct (Hwf q) as [Hnd Hu]. split.
  - eapply sublist_NoDup; [done|]. by apply fmap_sublist.
  - intros w Hw. rewrite (Hp q) by done. apply Hu.
    eapply elem_of_sublist; [done|apply Hsub].
Qed.

Lemma set_queue_cases q q' l s :
  queue q' (set_queue q l s) = if decide (q = q') then l else queue q' s.
Proof. by destruct q, q'. Qed.

Lemma set_queue_promises q l s : promises (set_queue q l s) = promises s.
Proof. by destruct q. Qed.

Lemma set_queue_cancellationRequested q l s :
  cancellationRequested (set_queue q l s) = cancellationRequested s.
Proof. by destruct q. Qed.

(** Waking the head of a queue. *)
Lemma queues_wf_wake q w ws s :
  queues_wf s → queue q s = w :: ws →
  queues_wf (resolver q w (set_queue q ws s)).
Proof.
  intros Hwf Hq. apply (queues_wf_shrink s); [done| |].
  - intros q'. rewrite resolver_queue, set_queue_cases.
    case_decide; [subst; rewrite Hq; by apply sublist_cons|done].
  - intros q' x. rewrite resolver_queue, set_queue_cases. intros Hx.
    rewrite resolver_promises_ne, set_queue_promises; [done|].
    intros Heq. destruct (Hwf q) as [Hnd Hu]. rewrite Hq in Hnd, Hu.
    case_decide as Hqq.
    + subst q'. apply NoDup_cons in Hnd as [Hnd _]. apply Hnd.
      rewrite <- Heq. by apply list_elem_of_fmap_2.
    + apply Hqq. symmetry. eapply (queues_wf_same_role s q' q x w); eauto.
      rewrite Hq. by left.
Qed.

Lemma writer_order_wake q w ws s :
  queues_wf s → writer_order s → queue q s = w :: ws → q ≠ Reader →
  writer_order (resolver q w (set_queue q ws s)).
Proof.
  intros Hwf Ho Hq Hne x p hold Hx Hlt Hp.
  change (_writers ?s) with (queue Writer s) in Hx.
  rewrite resolver_queue, set_queue_cases in Hx.
  assert (x ∈ _writers s) as Hx'.
  { case_decide; [|done]. subst q. simpl in Hq. rewrite Hq. by right. }
  destruct (decide (p = w_promise w)) as [->|Hpw].
  - assert (promises s !! w_promise w = Some (q, Unsettled)) as Hw
        by (apply Hwf; rewrite Hq; by left).
    rewrite resolver_promises_eq in Hp by (by rewrite set_queue_promises).
    congruence.
  - rewrite resolver_promises_ne, set_queue_promises in Hp by done.
    by eapply Ho.
Qed.

(** The batch of readers: promises off the batch are untouched. *)
Lemma readers_promises_ne l s p :
  p ∉ w_promise <$> l →
  promises (foldl (λ s w, resolver Reader w s) s l) !! p = promises s !! p.
Proof.
  revert s. induction l as [|w l IH]; intros s Hp; [done|]. simpl.
  rewrite fmap_cons, not_elem_of_cons in Hp. destruct Hp as [Hw Hl].
  by rewrite IH, resolver_promises_ne.
Qed.

Lemma readers_queue l s q :
  queue q (foldl (λ s w, resolver Reader w s) s l) = queue q s.
Proof.
  revert s. induction l as [|w l IH]; intros s; [done|]. simpl.
  by rewrite IH, resolver_queue.
Qed.

Lemma readers_cancellationRequested l s :
  cancellationRequested (foldl (λ s w, resolver Reader w s) s l) =
  cancellationRequested s.
Proof.
  revert s. induction l as [|w l IH]; intros s; [done|]. simpl.
  by rewrite IH, resolver_cancellationRequested.
Qed.

(** Every reader of the batch whose token is not cancelled gets a handle. *)
Lemma readers_resolved l s w :
  NoDup (w_promise <$> l) →
  (∀ x, x ∈ l → promises s !! w_promise x = Some (Reader, Unsettled)) →
  w ∈ l → is_cancelled (w_token w) s = false →
  ∃ hold,
    promises (foldl (λ s w, resolver Reader w s) s l) !! w_promise w =
    Some (Reader, Resolved hold).
Proof.
  revert s. induction l as [|x l IH]; intros s Hnd Hu Hw Hc;
    [by apply elem_of_nil in Hw|].
  rewrite fmap_cons in Hnd. apply NoDup_cons in Hnd as [Hx Hnd]. simpl.
  apply elem_of_cons in Hw as [->|Hw].
  - exists (length (handles s)). rewrite readers_promises_ne by done.
    rewrite resolver_promises_eq, Hc; [done|]. apply Hu. by left.
  - apply IH; try done.
    + intros y Hy. rewrite resolver_promises_ne; [apply Hu; by right|].
      intros Heq. apply Hx. rewrite <- Heq. by apply list_elem_of_fmap_2.
    + rewrite <- Hc. apply is_cancelled_ext, resolver_cancellationRequested.
Qed.

Lemma readers_cleared_queue l s q :
  queue q (set_readers [] (foldl (λ s w, resolver Reader w s) s l)) =
  if decide (q = Reader) then [] else queue q s.
Proof.
  rewrite <- (readers_queue l s q). by destruct q.
Qed.

Lemma queues_wf_processRead s :
  queues_wf s → queues_wf (_processReadLockRequests s).
Proof.
  intros Hwf. unfold _processReadLockRequests. case_match; [|done].
  apply (queues_wf_shrink s); [done| |].
  - intros q. rewrite readers_cleared_queue.
    case_decide; [apply sublist_nil_l|done].
  - intros q x. rewrite readers_cleared_queue.
    case_decide as Hq; [by intros ?%elem_of_nil|]. intros Hx.
    simpl. apply readers_promises_ne.
    intros (y & Heq & Hy)%list_elem_of_fmap.
    apply Hq. by eapply (queues_wf_same_role s q Reader x y).
Qed.

Lemma can_take_ext q s s' :
  (∀ q', queue q' s' = queue q' s) → _count s' = _count s →
  _upgradeable s' = _upgradeable s → _upgraded s' = _upgraded s →
  canTake q s' = canTake q s.
Proof.
  intros Hq Hc Hu Hg.
  pose proof (Hq Writer) as Hw. pose proof (Hq Upgrader) as Hup.
  simpl in Hw, Hup.
  destruct q; simpl;
    unfold _canTakeReadLock, _canTakeUpgradeableReadLock,
      _canTakeUpgradeLock, _canTakeWriteLock; congruence.
Qed.

(** [request] spelled out: the new promise is the last one, and it is
    rejected, resolved at once, or left open with the request parked. *)
Lemma request_unfold q token s :
  request q token s =
  (length (promises s),
   if is_cancelled token s
   then set_promises (promises s ++ [(q, Rejected CancelError)]) s
   else if canTake q s
   then set_promises (promises s ++ [(q, Resolved (length (handles s)))])
          (take q s).2
   else
     let w := {| w_promise := length (promises s); w_token := token |} in
     register q w
       (set_queue q (queue q s ++ [w])
          (set_promises (promises s ++ [(q, Unsettled)]) s))).
Proof.
  unfold request. set (s0 := set_promises _ s). f_equal.
  assert (∀ r s1, promises s1 = promises s0 →
            settle (length (promises s)) r s1 =
            set_promises (promises s ++ [(q, r)]) s1) as Hset.
  { intros r s1 Hs1. unfold settle. rewrite Hs1. simpl.
    rewrite lookup_app_r, Nat.sub_diag by done. simpl.
    by rewrite insert_app_r_alt, Nat.sub_diag by done. }
  rewrite (is_cancelled_ext token s0 s) by done.
  destruct (is_cancelled token s); [by rewrite Hset|].
  rewrite (can_take_ext q s s0) by (try done; by intros []).
  destruct (canTake q s) eqn:Hcan; [|done].
  pose proof (take_hold q s0) as Hh. pose proof (take_promises q s0) as Hp.
  destruct (take q s0) as [hold s1] eqn:Ht. simpl in *. subst hold.
  rewrite Hset by done. f_equal.
  replace s1 with (take q s0).2 by (by rewrite Ht).
  unfold s0. by destruct q.
Qed.

Lemma queues_wf_ext s s' :
  (∀ q, queue q s' = queue q s) → promises s' = promises s →
  queues_wf s → queues_wf s'.
Proof. intros Hq Hp Hwf q. rewrite Hq, Hp. apply Hwf. Qed.

Lemma writer_order_ext s s' :
  _writers s' = _writers s → promises s' = promises s →
  writer_order s → writer_order s'.
Proof. intros Hw Hp Ho w p hold. rewrite Hw, Hp. apply Ho. Qed.

(** New promises at the end do not disturb the queues. *)
Lemma queues_wf_grow s s' l :
  (∀ q, queue q s' = queue q s) → promises s' = promises s ++ l →
  queues_wf s → queues_wf s'.
Proof.
  intros Hq Hp Hwf q. rewrite Hq, Hp. destruct (Hwf q) as [Hnd Hu].
  split; [done|]. intros w Hw. apply lookup_app_l_Some. auto.
Qed.

Lemma queues_wf_request q token s :
  queues_wf s → queues_wf (request q token s).2.
Proof.
  intros Hwf. rewrite request_unfold. simpl.
  destruct (is_cancelled token s).
  { by apply (queues_wf_grow s _ [(q, Rejected CancelError)]). }
  destruct (canTake q s).
  { apply (queues_wf_grow s _ [(q, Resolved (length (handles s)))]);
      [intros q'; rewrite <- (take_queue q s q'); by destruct q'
      |done|done]. }
  intros q'. simpl.
  change (queue q' (register ?a ?b ?c)) with (queue q' c).
  change (promises (register ?a ?b ?c)) with (promises c).
  rewrite set_queue_cases, set_queue_promises. simpl.
  destruct (Hwf q') as [Hnd Hu]. case_decide as Hqq.
  - subst q'. split.
    + rewrite fmap_app. apply NoDup_app. split; [done|]. simpl.
      split; [|apply NoDup_singleton].
      intros p (w & -> & Hw)%list_elem_of_fmap Heq%list_elem_of_singleton.
      apply (queues_wf_lt s q w Hwf) in Hw. lia.
    + intros w [Hw| ->%list_elem_of_singleton]%elem_of_app.
      * apply lookup_app_l_Some. auto.
      * simpl. by rewrite lookup_app_r, Nat.sub_diag.
  - change (queue q' (set_promises ?a ?b)) with (queue q' b).
    split; [done|]. intros w Hw. apply lookup_app_l_Some. auto.
Qed.

Lemma writer_order_request q token s :
  queues_wf s → writer_order s → writer_order (request q token s).2.
Proof.
  intros Hwf Ho. rewrite request_unfold. simpl.
  assert (∀ s' r, _writers s' = _writers s →
            promises s' = promises s ++ [(q, r)] →
            (∀ hold, r = Resolved hold → q = Reader → _writers s = []) →
            writer_order s') as Hgrow.
  { intros s' r Hw Hp Hr w p hold. rewrite Hw, Hp. intros Hin Hlt Hl.
    destruct (decide (p < length (promises s))%nat) as [Hp'|Hp'].
    - rewrite lookup_app_l in Hl by done. by eapply Ho.
    - rewrite lookup_app_r in Hl by lia.
      destruct (p - length (promises s))%nat; simpl in Hl; [|done].
      injection Hl as -> ->. rewrite (Hr hold) in Hin by done.
      by apply elem_of_nil in Hin. }
  destruct (is_cancelled token s); [by eapply Hgrow|].
  destruct (canTake q s) eqn:Hcan.
  { eapply Hgrow; simpl; [|done|].
    - apply (take_queue q s Writer).
    - intros hold _ ->. simpl in Hcan. unfold _canTakeReadLock in Hcan.
      rewrite !andb_true_iff, !Nat.eqb_eq in Hcan.
      destruct Hcan as [[[_ Hw] _] _]. by apply nil_length_inv. }
  intros w p hold.
  change (_writers (register ?a ?b ?c)) with (queue Writer c).
  change (promises (register ?a ?b ?c)) with (promises c).
  rewrite set_queue_cases, set_queue_promises. simpl.
  intros Hin Hlt Hl.
  assert (p < length (promises s))%nat as Hp'.
  { pose proof (lookup_lt_Some _ _ _ Hl) as Hlen.
    rewrite length_app in Hlen. simpl in Hlen.
    destruct (decide (p = length (promises s))) as [->|]; [|lia].
    by rewrite lookup_app_r, Nat.sub_diag in Hl. }
  rewrite lookup_app_l in Hl by done.
  case_decide; [subst q|by eapply Ho].
  apply elem_of_app in Hin as [Hin| ->%list_elem_of_singleton];
    [by eapply Ho|]. simpl in Hlt. lia.
Qed.

Lemma queues_wf_processWrite s :
  queues_wf s → queues_wf (_processWriteLockRequest s).2.
Proof.
  intros Hwf. unfold _processWriteLockRequest. case_match; [|done].
  destruct (_writers s) as [|w ws] eqn:Hq; [done|].
  by apply (queues_wf_wake Writer w ws s).
Qed.

Lemma queues_wf_processUpgrade s :
  queues_wf s → queues_wf (_processUpgradeRequest s).2.
Proof.
  intros Hwf. unfold _processUpgradeRequest. case_match; [|done].
  destruct (_upgrades s) as [|w ws] eqn:Hq; [done|].
  by apply (queues_wf_wake Upgrader w ws s).
Qed.

Lemma queues_wf_processUpgradeable s :
  queues_wf s → queues_wf (_processUpgradeableReadLockRequest s).
Proof.
  intros Hwf. unfold _processUpgradeableReadLockRequest.
  case_match; [|done].
  destruct (_upgradeables s) as [|w ws] eqn:Hq; [done|].
  by apply (queues_wf_wake UpgradeableReader w ws s).
Qed.

Lemma writer_order_processWrite s :
  queues_wf s → writer_order s → writer_order (_processWriteLockRequest s).2.
Proof.
  intros Hwf Ho. unfold _processWriteLockRequest. case_match; [|done].
  destruct (_writers s) as [|w ws] eqn:Hq; [done|].
  by apply (writer_order_wake Writer w ws s).
Qed.

Lemma writer_order_processUpgrade s :
  queues_wf s → writer_order s → writer_order (_processUpgradeRequest s).2.
Proof.
  intros Hwf Ho. unfold _processUpgradeRequest. case_match; [|done].
  destruct (_upgrades s) as [|w ws] eqn:Hq; [done|].
  by apply (writer_order_wake Upgrader w ws s).
Qed.

Lemma writer_order_processUpgradeable s :
  queues_wf s → writer_order s →
  writer_order (_processUpgradeableReadLockRequest s).
Proof.
  intros Hwf Ho. unfold _processUpgradeableReadLockRequest.
  case_match; [|done].
  destruct (_upgradeables s) as [|w ws] eqn:Hq; [done|].
  by apply (writer_order_wake UpgradeableReader w ws s).
Qed.

(** Readers are only woken when no writer waits. *)
Lemma writer_order_processRead s :
  writer_order s → writer_order (_processReadLockRequests s).
Proof.
  intros Ho. unfold _processReadLockRequests.
  destruct (_canTakeReadLock s) eqn:Hcan; [|done].
  unfold _canTakeReadLock in Hcan.
  rewrite !andb_true_iff, !Nat.eqb_eq in Hcan.
  intros w p hold. simpl.
  change (_writers ?s) with (queue Writer s). rewrite readers_queue. simpl.
  destruct Hcan as [[[_ Hw] _] _]. rewrite (nil_length_inv _ Hw).
  intros Hin. by apply elem_of_nil in Hin.
Qed.

Lemma orderly_processLockRequests s :
  queues_wf s → writer_order s →
  queues_wf (_processLockRequests s) ∧ writer_order (_processLockRequests s).
Proof.
  intros Hwf Ho. unfold _processLockRequests.
  pose proof (queues_wf_processWrite s Hwf) as Hwf1.
  pose proof (writer_order_processWrite s Hwf Ho) as Ho1.
  destruct (_processWriteLockRequest s) as [[] s1]; [done|]. simpl in *.
  pose proof (queues_wf_processUpgrade s1 Hwf1) as Hwf2.
  pose proof (writer_order_processUpgrade s1 Hwf1 Ho1) as Ho2.
  destruct (_processUpgradeRequest s1) as [[] s2]; [done|]. simpl in *.
  split.
  - by apply queues_wf_processRead, queues_wf_processUpgradeable.
  - by apply writer_order_processRead, writer_order_processUpgradeable.
Qed.

Lemma scheduling_entry_queue hold s s1 q :
  scheduling_entry hold s = Some s1 → queue q s1 = queue q s.
Proof.
  unfold scheduling_entry. repeat case_match; try done; intros [= <-];
    by destruct q.
Qed.

Lemma scheduling_entry_promises hold s s1 :
  scheduling_entry hold s = Some s1 → promises s1 = promises s.
Proof.
  unfold scheduling_entry. by repeat case_match; try done; intros [= <-].
Qed.

Lemma scheduling_entry_cancellationRequested hold s s1 :
  scheduling_entry hold s = Some s1 →
  cancellationRequested s1 = cancellationRequested s.
Proof.
  unfold scheduling_entry. by repeat case_match; try done; intros [= <-].
Qed.

Lemma on_list_elem w l : on_list w l = true → ∃ x, x ∈ l ∧ w_promise x = w_promise w.
Proof.
  unfold on_list. induction l as [|y l IH]; simpl; [done|].
  intros [Hy|Hl]%orb_true_iff.
  - exists y. split; [by left|]. by apply bool_decide_eq_true in Hy.
  - destruct (IH Hl) as (x & Hx & Heq). exists x. split; [by right|done].
Qed.

Lemma deleteNode_elem w l x :
  x ∈ deleteNode w l ↔ w_promise x ≠ w_promise w ∧ x ∈ l.
Proof.
  unfold deleteNode. rewrite list_elem_of_filter. unfold same_node.
  by rewrite bool_decide_eq_false.
Qed.

(** The cancellation callback. *)
Lemma queues_wf_on_cancel q w s : queues_wf s → queues_wf (on_cancel q w s).
Proof.
  intros Hwf. unfold on_cancel.
  destruct (on_list w (queue q s)) eqn:Hon; [|done].
  apply on_list_elem in Hon as (y & Hy & Hyw).
  apply (queues_wf_shrink s); [done| |].
  - intros q'. rewrite settle_queue, set_queue_cases.
    case_decide; [subst; apply sublist_filter|done].
  - intros q' x. rewrite settle_queue, set_queue_cases. intros Hx.
    rewrite settle_promises_ne, set_queue_promises; [done|].
    case_decide as Hqq.
    + by apply deleteNode_elem in Hx as [Hx _].
    + intros Heq. apply Hqq. symmetry.
      eapply (queues_wf_same_role s q' q x y); eauto. congruence.
Qed.

Lemma settle_promises_resolved p r s p' q hold :
  promises (settle p r s) !! p' = Some (q, Resolved hold) →
  promises s !! p' = Some (q, Resolved hold) ∨
  (p' = p ∧ r = Resolved hold ∧ promises s !! p = Some (q, Unsettled)).
Proof.
  unfold settle. destruct (promises s !! p) as [[q0 [| |]]|] eqn:Hp; auto.
  simpl. destruct (decide (p' = p)) as [->|Hne].
  - rewrite list_lookup_insert_eq by (by eapply lookup_lt_Some).
    intros [= -> ->]. auto.
  - rewrite list_lookup_insert_ne by done. auto.
Qed.

Lemma writer_order_on_cancel q w s :
  writer_order s → writer_order (on_cancel q w s).
Proof.
  intros Ho. unfold on_cancel. case_match; [|done].
  intros x p hold.
  change (_writers ?s) with (queue Writer s).
  rewrite settle_queue, set_queue_cases. intros Hx Hlt Hp.
  apply settle_promises_resolved in Hp as [Hp|(_ & ? & _)]; [|done].
  rewrite set_queue_promises in Hp.
  eapply Ho; [|done|done].
  case_decide; [|done]. subst q. by apply deleteNode_elem in Hx as [_ Hx].
Qed.

Lemma orderly_notify p s :
  queues_wf s → writer_order s →
  queues_wf (notify p s) ∧ writer_order (notify p s).
Proof.
  intros Hwf Ho. unfold notify.
  destruct (list_find _ _) as [[i [q w]]|]; [|done].
  destruct (is_cancelled _ s); [|done]. split.
  - apply queues_wf_on_cancel. revert Hwf. by apply queues_wf_ext.
  - apply writer_order_on_cancel. revert Ho. by apply writer_order_ext.
Qed.

Lemma orderly_step o s :
  queues_wf s → writer_order s →
  queues_wf (step o s) ∧ writer_order (step o s).
Proof.
  intros Hwf Ho. destruct o as [t|t|t|hold t|hold|t|p]; simpl.
  - split; [by apply queues_wf_request|by apply writer_order_request].
  - split; [by apply queues_wf_request|by apply writer_order_request].
  - split; [by apply queues_wf_request|by apply writer_order_request].
  - destruct (upgrade hold t s) as [[p s']|] eqn:Hu; [|done].
    apply upgrade_Return in Hu as [_ Hu].
    change s' with (p, s').2. rewrite Hu.
    split; [by apply queues_wf_request|by apply writer_order_request].
  - destruct (release hold s) eqn:Hr; [|done].
    apply release_scheduling in Hr as (s1 & He & ->).
    apply orderly_processLockRequests.
    + revert Hwf. apply queues_wf_ext;
        eauto using scheduling_entry_queue, scheduling_entry_promises.
    + revert Ho. apply writer_order_ext;
        [apply (scheduling_entry_queue hold s s1 Writer He)|
         eauto using scheduling_entry_promises].
  - split; [revert Hwf; by apply queues_wf_ext|
            revert Ho; by apply writer_order_ext].
  - by apply orderly_notify.
Qed.

Lemma orderly_run ops s :
  queues_wf s → writer_order s →
  queues_wf (run ops s) ∧ writer_order (run ops s).
Proof.
  revert s. induction ops as [|o ops IH]; intros s Hwf Ho; [done|].
  destruct (orderly_step o s Hwf Ho). by apply IH.
Qed.

Lemma writer_order_new_lock : writer_order new_lock.
Proof. intros w p hold Hw. by apply elem_of_nil in Hw. Qed.

(** ** While a writer holds the lock *)

Lemma live_write_le s h :
  handles s !! h = Some (WriteHandle false) → 1 ≤ writers_in s.
Proof.
  intros Hh. unfold writers_in.
  pose proof (sum_list_with_in _ live_write _ (list_elem_of_lookup_2 _ _ _ Hh)).
  simpl in *. lia.
Qed.

Lemma live_read_le s h :
  handles s !! h = Some (ReadHandle false) → 1 ≤ readers_in s.
Proof.
  intros Hh. unfold readers_in.
  pose proof (sum_list_with_in _ live_read _ (list_elem_of_lookup_2 _ _ _ Hh)).
  simpl in *. lia.
Qed.

Lemma writer_holding s hw :
  census s → handles s !! hw = Some (WriteHandle false) →
  _count s = -1 ∧ readers_in s = 0 ∧ writers_in s = 1 ∧
  _upgradeable s = None ∧ _upgraded s = None.
Proof. intros [] Hh%live_write_le; auto; lia. Qed.

Lemma sole_writer s hw h :
  writers_in s = 1 →
  handles s !! hw = Some (WriteHandle false) →
  handles s !! h = Some (WriteHandle false) → h = hw.
Proof.
  unfold writers_in. intros Hone Hw Hh.
  destruct (decide (h = hw)) as [|Hne]; [done|].
  pose proof (sum_list_with_insert live_write _ _ _ (WriteHandle true) Hw)
    as Hsum.
  assert (<[hw := WriteHandle true]> (handles s) !! h
          = Some (WriteHandle false)) as Hh'
      by (by rewrite list_lookup_insert_ne).
  pose proof (sum_list_with_in _ live_write _
                (list_elem_of_lookup_2 _ _ _ Hh')).
  simpl in *. lia.
Qed.

Lemma closed_can_take q s : _count s = -1 → canTake q s = false.
Proof.
  intros Hc. destruct q; simpl;
    unfold _canTakeReadLock, _canTakeUpgradeableReadLock,
      _canTakeUpgradeLock, _canTakeWriteLock; rewrite Hc; done.
Qed.

(** Nothing but the writer's own release lets a reader in. *)
Lemma held_step o s hw p h :
  census s → handles s !! hw = Some (WriteHandle false) → o ≠ Release hw →
  promises (step o s) !! p = Some (Reader, Resolved h) →
  promises s !! p = Some (Reader, Resolved h).
Proof.
  intros Hc Hw Ho.
  destruct (writer_holding s hw Hc Hw) as (Hcount & Hr & Hone & Hu & Hg).
  assert (∀ q t, promises (request q t s).2 !! p = Some (Reader, Resolved h)
                 → promises s !! p = Some (Reader, Resolved h)) as Hreq.
  { intros q t. rewrite request_unfold. simpl.
    rewrite closed_can_take by done.
    destruct (is_cancelled t s); simpl; rewrite ?set_queue_promises; simpl;
      intros Hp;
      pose proof (lookup_lt_Some _ _ _ Hp) as Hlt;
      rewrite length_app in Hlt; simpl in Hlt;
      (destruct (decide (p = length (promises s))) as [->|];
       [by rewrite lookup_app_r, Nat.sub_diag in Hp
       |by rewrite lookup_app_l in Hp by lia]). }
  destruct o as [t|t|t|hold t|hold|t|w]; simpl; [apply Hreq..| | |done|].
  - destruct (upgrade hold t s) as [[p' s']|] eqn:Hup; [|done].
    apply upgrade_Return in Hup as [? _]. congruence.
  - assert (hold ≠ hw) as Hne by congruence.
    destruct (release hold s) as [s'|] eqn:Hrel; [|done].
    apply release_scheduling in Hrel as (s1 & He & _).
    revert He. unfold scheduling_entry.
    destruct (handles s !! hold) as [[[]| | |[]]|] eqn:Hh; try done.
    + apply live_read_le in Hh. lia.
    + by rewrite bool_decide_eq_false_2 by congruence.
    + by rewrite bool_decide_eq_false_2 by congruence.
    + by pose proof (sole_writer s hw hold Hone Hw Hh).
  - unfold notify. destruct (list_find _ _) as [[i [q x]]|]; [|done].
    destruct (is_cancelled _ s); [|done]. unfold on_cancel.
    destruct (on_list _ _); [|done].
    intros [Hp|(_ & ? & _)]%settle_promises_resolved; [|done].
    by rewrite set_queue_promises in Hp.
Qed.

Lemma held_run ops s hw p h :
  census s → handles s !! hw = Some (WriteHandle false) → Release hw ∉ ops →
  promises (run ops s) !! p = Some (Reader, Resolved h) →
  promises s !! p = Some (Reader, Resolved h).
Proof.
  revert s. induction ops as [|o ops IH]; intros s Hc Hw Hn; [done|].
  apply not_elem_of_cons in Hn as [Ho Hn]. simpl. intros Hp.
  apply (held_step o s hw); [done|done|congruence|].
  apply IH; [by apply census_step| |done|done].
  apply step_handles_ne; [congruence|done].
Qed.

Lemma resolver_handles q w s :
  is_cancelled (w_token w) s = false →
  handles (resolver q w s) = handles s ++ [new_handle q].
Proof.
  intros Hc. rewrite resolver_unfold, Hc, settle_handles, take_handles.
  done.
Qed.

(** The release of a writer with one writer parked: that writer is next. *)
Lemma release_write_admits_writer s hold w :
  queues_wf s →
  handles s !! hold = Some (WriteHandle false) →
  _writers s = [w] → is_cancelled (w_token w) s = false →
  ∃ s1, release hold s = Return s1 ∧
    promises s1 !! w_promise w = Some (Writer, Resolved (length (handles s))) ∧
    handles s1 !! length (handles s) = Some (WriteHandle false) ∧
    _readers s1 = _readers s ∧
    ∀ r, r ∈ _readers s → promises s1 !! w_promise r = Some (Reader, Unsettled).
Proof.
  intros Hwf Hh Hw Hc.
  set (e := set_count 0 (set_handles (<[hold := WriteHandle true]> (handles s)) s)).
  assert (scheduling_entry hold s = Some e) as He
      by (unfold scheduling_entry; by rewrite Hh).
  assert (_processLockRequests e = resolver Writer w (set_writers [] e)) as Hp.
  { unfold _processLockRequests, _processWriteLockRequest. simpl.
    by rewrite Hw. }
  exists (_processLockRequests e). split; [apply release_scheduling; eauto|].
  rewrite Hp.
  assert (promises s !! w_promise w = Some (Writer, Unsettled)) as Hpw.
  { apply Hwf. simpl. rewrite Hw. by left. }
  assert (is_cancelled (w_token w) (set_writers [] e) = false) as Hc'
      by (by rewrite (is_cancelled_ext _ _ s)).
  split; [|split; [|split]].
  - rewrite resolver_promises_eq by done. rewrite Hc'. simpl.
    by rewrite length_insert.
  - rewrite resolver_handles by done.
    simpl. rewrite lookup_app_r; rewrite length_insert; [|done].
    by rewrite Nat.sub_diag.
  - apply (resolver_queue Writer w (set_writers [] e) Reader).
  - intros r Hr. rewrite resolver_promises_ne; simpl; [by apply (Hwf Reader)|].
    intros Heq.
    assert (Reader = Writer); [|done].
    eapply (queues_wf_same_role s Reader Writer r w); eauto.
    simpl. rewrite Hw. by left.
Qed.

(** Scheduling with no writer and no upgrade parked, the lock not held
    exclusively: every parked reader whose token is not cancelled is let
    in, whether or not an upgradeable reader was woken before. *)
Lemma schedule_admits_readers e r :
  queues_wf e → 0 ≤ _count e →
  _writers e = [] → _upgrades e = [] →
  r ∈ _readers e → is_cancelled (w_token r) e = false →
  ∃ h, promises (_processLockRequests e) !! w_promise r
       = Some (Reader, Resolved h).
Proof.
  intros Hwfe Hn Hw Hup Hr Hcr.
  set (s3 := _processUpgradeableReadLockRequest e).
  assert (_processLockRequests e = _processReadLockRequests s3) as ->.
  { unfold _processLockRequests, _processWriteLockRequest,
      _processUpgradeRequest. rewrite Hw.
    destruct (_canTakeWriteLock e); rewrite Hup;
      by destruct (_canTakeUpgradeLock e). }
  pose proof (queues_wf_processUpgradeable e Hwfe) as Hwf3. fold s3 in Hwf3.
  assert (∀ q, queue q s3 = queue q e ∨ q = UpgradeableReader) as Hq3.
  { intros q. unfold s3, _processUpgradeableReadLockRequest.
    repeat case_match; try (left; by destruct q).
    rewrite resolver_queue. destruct q; auto. }
  assert (cancellationRequested s3 = cancellationRequested e) as Hc3.
  { unfold s3, _processUpgradeableReadLockRequest.
    repeat case_match; try done. by rewrite resolver_cancellationRequested. }
  assert (0 ≤ _count s3) as Hn3.
  { unfold s3, _processUpgradeableReadLockRequest.
    repeat case_match; simpl; try done.
    rewrite resolver_unfold. case_match; rewrite settle_count; simpl; lia. }
  destruct (Hq3 Reader) as [Hr3|]; [|done].
  destruct (Hq3 Writer) as [Hw3|]; [|done].
  destruct (Hq3 Upgrader) as [Hu3|]; [|done]. simpl in Hr3, Hw3, Hu3.
  unfold _processReadLockRequests, _canTakeReadLock.
  rewrite Hw3, Hu3, Hw, Hup. simpl.
  assert ((0 <=? _count s3) = true) as -> by lia. simpl.
  rewrite Hr3. destruct (Hwf3 Reader) as [Hnd Hun]. simpl in Hnd, Hun.
  rewrite Hr3 in Hnd, Hun.
  apply readers_resolved; try done.
  by rewrite (is_cancelled_ext _ s3 e).
Qed.

Lemma release_write_admits_readers s hw r :
  queues_wf s →
  handles s !! hw = Some (WriteHandle false) →
  _writers s = [] → _upgrades s = [] →
  r ∈ _readers s → is_cancelled (w_token r) s = false →
  ∃ h, promises (step (Release hw) s) !! w_promise r
       = Some (Reader, Resolved h).
Proof.
  intros Hwf Hh Hw Hup Hr Hcr.
  set (e := set_count 0 (set_handles (<[hw := WriteHandle true]> (handles s)) s)).
  assert (scheduling_entry hw s = Some e) as He
      by (unfold scheduling_entry; by rewrite Hh).
  assert (release hw s = Return (_processLockRequests e)) as Hrel
      by (apply release_scheduling; eauto).
  simpl. rewrite Hrel.
  by apply schedule_admits_readers.
Qed.

(** C2: writers are not starved.  In every execution, a read request that
    arrived after a writer does not hold the lock while that writer still
    waits.  When a writer releases with one writer and some readers parked,
    the parked writer is admitted, the readers stay parked as long as it
    has not released, and its release lets them in. *)
Theorem writer_non_starvation ops :
  let s := run ops new_lock in
  (∀ w p hold,
     w ∈ _writers s → (w_promise w < p)%nat →
     promises s !! p ≠ Some (Reader, Resolved hold)) ∧
  (∀ hold w,
     handles s !! hold = Some (WriteHandle false) →
     _writers s = [w] → is_cancelled (w_token w) s = false →
     ∃ s1 hw,
       release hold s = Return s1 ∧
       promises s1 !! w_promise w = Some (Writer, Resolved hw) ∧
       handles s1 !! hw = Some (WriteHandle false) ∧
       _readers s1 = _readers s ∧
       (∀ ops' r h,
          Release hw ∉ ops' → r ∈ _readers s →
          promises (run ops' s1) !! w_promise r
          ≠ Some (Reader, Resolved h)) ∧
       (∀ ops' r,
          Release hw ∉ ops' →
          let s2 := run ops' s1 in
          _writers s2 = [] → _upgrades s2 = [] →
          r ∈ _readers s2 → is_cancelled (w_token r) s2 = false →
          ∃ h, promises (step (Release hw) s2) !! w_promise r
               = Some (Reader, Resolved h))).
Proof.
  intros s.
  destruct (orderly_run ops new_lock queues_wf_new_lock writer_order_new_lock)
    as [Hwf Ho]. fold s in Hwf, Ho.
  pose proof (census_run ops new_lock census_new_lock) as Hc. fold s in Hc.
  split; [exact Ho|]. intros hold w Hh Hw Hcw.
  destruct (release_write_admits_writer s hold w Hwf Hh Hw Hcw)
    as (s1 & Hrel & Hpw & Hhw & Hrs & Hun).
  exists s1, (length (handles s)). repeat split; try done.
  - intros ops' r h Hn Hr Hp.
    apply (held_run ops' s1 (length (handles s))) in Hp; try done.
    + rewrite Hun in Hp by done. done.
    + by eapply census_release.
  - intros ops' r Hn s2 Hw2 Hu2 Hr2 Hc2.
    assert (s1 = step (Release hold) s) as Hs1 by (simpl; by rewrite Hrel).
    assert (s2 = run (ops ++ Release hold :: ops') new_lock) as Hs2.
    { unfold s2. rewrite Hs1. unfold run. by rewrite foldl_app. }
    apply release_write_admits_readers; try done.
    + rewrite Hs2.
      apply orderly_run; [apply queues_wf_new_lock|apply writer_order_new_lock].
    + by apply run_handles_ne.
Qed.

(** ** The order of scheduling *)

(** C1, as the code has it: the scheduler tries a writer, then an upgrade,
    and stops at the first of the two that wakes a waiter, leaving the
    other queues alone.  Otherwise it runs the upgradeable step and then
    the readers step, the latter on the state the former produced. *)
Theorem reschedule_order s :
  (∀ w ws,
     _canTakeWriteLock s = true → _writers s = w :: ws →
     _processLockRequests s = resolver Writer w (set_writers ws s) ∧
     _upgrades (_processLockRequests s) = _upgrades s ∧
     _upgradeables (_processLockRequests s) = _upgradeables s ∧
     _readers (_processLockRequests s) = _readers s) ∧
  (∀ w ws,
     _canTakeWriteLock s = false ∨ _writers s = [] →
     _canTakeUpgradeLock s = true → _upgrades s = w :: ws →
     _processLockRequests s = resolver Upgrader w (set_upgrades ws s) ∧
     _writers (_processLockRequests s) = _writers s ∧
     _upgradeables (_processLockRequests s) = _upgradeables s ∧
     _readers (_processLockRequests s) = _readers s) ∧
  (_canTakeWriteLock s = false ∨ _writers s = [] →
   _canTakeUpgradeLock s = false ∨ _upgrades s = [] →
   _processLockRequests s =
   _processReadLockRequests (_processUpgradeableReadLockRequest s)).
Proof.
  assert (_canTakeWriteLock s = false ∨ _writers s = [] →
          _processWriteLockRequest s = (false, s)) as Hno1.
  { unfold _processWriteLockRequest. by intros [->| ->]; [|case_match]. }
  assert (_canTakeUpgradeLock s = false ∨ _upgrades s = [] →
          _processUpgradeRequest s = (false, s)) as Hno2.
  { unfold _processUpgradeRequest. by intros [->| ->]; [|case_match]. }
  split; [|split].
  - intros w ws Hcan Hw.
    assert (_processLockRequests s = resolver Writer w (set_writers ws s))
      as ->.
    { unfold _processLockRequests, _processWriteLockRequest.
      by rewrite Hcan, Hw. }
    split; [done|].
    by rewrite (resolver_queue Writer w _ Upgrader),
      (resolver_queue Writer w _ UpgradeableReader),
      (resolver_queue Writer w _ Reader).
  - intros w ws Hno Hcan Hw.
    assert (_processLockRequests s = resolver Upgrader w (set_upgrades ws s))
      as ->.
    { unfold _processLockRequests. rewrite (Hno1 Hno).
      unfold _processUpgradeRequest. by rewrite Hcan, Hw. }
    split; [done|].
    by rewrite (resolver_queue Upgrader w _ Writer),
      (resolver_queue Upgrader w _ UpgradeableReader),
      (resolver_queue Upgrader w _ Reader).
  - intros H1 H2. unfold _processLockRequests.
    by rewrite (Hno1 H1), (Hno2 H2).
Qed.



(** C1 as stated fails: a writer releases with an upgradeable reader and a
    reader parked; the upgradeable reader is woken by the third step and
    the reader by the fourth step of the same scheduling. *)
Lemma upgradeable_wake_does_not_stop_readers :
  let s := run [Write None; UpgradeableRead None; Read None] new_lock in
  ∃ e,
    scheduling_entry 0 s = Some e ∧
    _upgradeables e = [{| w_promise := 1; w_token := None |}] ∧
    _readers e = [{| w_promise := 2; w_token := None |}] ∧
    promises e !! 1%nat = Some (UpgradeableReader, Unsettled) ∧
    promises e !! 2%nat = Some (Reader, Unsettled) ∧
    promises (_processUpgradeableReadLockRequest e) !! 1%nat
    = Some (UpgradeableReader, Resolved 1) ∧
    promises (_processLockRequests e) !! 1%nat
    = Some (UpgradeableReader, Resolved 1) ∧
    promises (_processLockRequests e) !! 2%nat = Some (Reader, Resolved 2) ∧
    _readers (_processLockRequests e) = [] ∧
    _count (_processLockRequests e) = 2.
Proof.
  eexists. split; [vm_compute; reflexivity|]. vm_compute. repeat split.
Qed.


(** ** Releasing the upgradeable handle *)

(** C4: [release] on the current upgradeable handle enters the scheduler
    with [_count] reset to [0] when it was [-1] and decremented otherwise,
    with [_upgraded] and [_upgradeable] cleared and nothing else changed. *)
Theorem release_upgradeable s u :
  handles s !! u = Some UpgradeableHandle →
  _upgradeable s = Some u →
  ∃ e,
    release u s = Return (_processLockRequests e) ∧
    _releaseUpgradeableReadLock s = _processLockRequests e ∧
    _count e = (if _count s =? -1 then 0 else _count s - 1) ∧
    _upgraded e = None ∧
    _upgradeable e = None ∧
    (∀ q, queue q e = queue q s) ∧
    handles e = handles s ∧
    promises e = promises s ∧
    cancellationRequested e = cancellationRequested s ∧
    registrations e = registrations s.
Proof.
  intros Hh Hu.
  exists (set_upgradeable None
            (set_upgraded None
               (if _count s =? -1 then set_count 0 s
                else set_count (_count s - 1) s))).
  unfold release, _releaseUpgradeableReadLock.
  rewrite Hh, bool_decide_eq_true_2 by done.
  destruct (_count s =? -1); repeat split; by intros [].
Qed.


(** ** Upgrading again *)

Lemma upgrade_sole_holder s u token :
  handles s !! u = Some UpgradeableHandle →
  _upgradeable s = Some u → _upgraded s = None → _count s = 1 →
  is_cancelled token s = false →
  ∃ s',
    upgrade u token s = Return (length (promises s), s') ∧
    promises s' !! length (promises s)
    = Some (Upgrader, Resolved (length (handles s))) ∧
    handles s' !! length (handles s) = Some UpgradeHandle ∧
    _upgraded s' = Some (length (handles s)) ∧
    _upgradeable s' = Some u ∧
    _count s' = -1.
Proof.
  intros Hh Hu Hg Hc Htok. eexists. unfold upgrade, _upgrade.
  rewrite Hh, bool_decide_eq_true_2 by done.
  rewrite request_unfold, Htok. simpl. unfold _canTakeUpgradeLock.
  rewrite Hc, Hu, Hg. simpl. split; [done|]. simpl.
  rewrite !lookup_app_r, !Nat.sub_diag by done. done.
Qed.

(** C10: releasing the handle of an upgrade enters the scheduler with
    [_count] back at [1], [_upgraded] cleared and [_upgradeable] kept.
    Whenever the upgradeable reader is the only holder, [upgrade] on its
    handle succeeds at once; this is so right after the release when no
    upgrade is parked and no reader can be let in. *)
Theorem upgrade_repeatable s u g :
  handles s !! u = Some UpgradeableHandle →
  handles s !! g = Some UpgradeHandle →
  _upgradeable s = Some u →
  _upgraded s = Some g →
  (∃ e,
     release g s = Return (_processLockRequests e) ∧
     _count e = 1 ∧ _upgraded e = None ∧ _upgradeable e = Some u ∧
     (∀ q, queue q e = queue q s) ∧ handles e = handles s) ∧
  (∀ s' token,
     handles s' !! u = Some UpgradeableHandle →
     _upgradeable s' = Some u → _upgraded s' = None → _count s' = 1 →
     is_cancelled token s' = false →
     ∃ s'',
       upgrade u token s' = Return (length (promises s'), s'') ∧
       promises s'' !! length (promises s')
       = Some (Upgrader, Resolved (length (handles s'))) ∧
       _upgraded s'' = Some (length (handles s')) ∧
       _upgradeable s'' = Some u ∧
       _count s'' = -1) ∧
  (_upgrades s = [] → _readers s = [] ∨ _writers s ≠ [] →
   ∃ s',
     release g s = Return s' ∧
     handles s' !! u = Some UpgradeableHandle ∧
     _upgradeable s' = Some u ∧ _upgraded s' = None ∧ _count s' = 1).
Proof.
  intros Hu Hg Hsu Hsg.
  assert (release g s
          = Return (_processLockRequests (set_count 1 (set_upgraded None s))))
    as Hrel.
  { unfold release. by rewrite Hg, bool_decide_eq_true_2 by done. }
  split; [|split].
  - eexists. split; [exact Hrel|]. by repeat split.
  - intros s' token Hh' Hu' Hg' Hc' Htok.
    destruct (upgrade_sole_holder s' u token) as (s'' & ? & ? & ? & ? & ? & ?);
      try done.
    exists s''. by repeat split.
  - intros Hup Hrw. eexists. split; [exact Hrel|].
    set (e := set_count 1 (set_upgraded None s)).
    assert (_processLockRequests e = _processReadLockRequests e) as ->.
    { unfold _processLockRequests, _processWriteLockRequest,
        _processUpgradeRequest, _processUpgradeableReadLockRequest,
        _canTakeUpgradeableReadLock, _canTakeUpgradeLock. simpl.
      rewrite Hup, Hsu. simpl. by rewrite Hsu. }
    unfold _processReadLockRequests, _canTakeReadLock. simpl. rewrite Hup.
    destruct Hrw as [Hr|Hw].
    + rewrite Hr. by case_match.
    + destruct (_writers s); [done|]. simpl. done.
Qed.

(** ** Cancellation *)

Lemma on_list_intro w l : w ∈ l → on_list w l = true.
Proof.
  unfold on_list. induction 1 as [|x y l Hl IH]; simpl.
  - unfold same_node. by rewrite bool_decide_eq_true_2.
  - rewrite IH. apply orb_true_r.
Qed.

Lemma NoDup_fmap_eq {A B} (f : A → B) (l : list A) x y :
  NoDup (f <$> l) → x ∈ l → y ∈ l → f x = f y → x = y.
Proof.
  induction l as [|a l IH]; intros Hnd Hx Hy Hf;
    [by apply elem_of_nil in Hx|].
  rewrite fmap_cons in Hnd. apply NoDup_cons in Hnd as [Ha Hnd].
  apply elem_of_cons in Hx as [->|Hx]; apply elem_of_cons in Hy as [->|Hy];
    auto.
  - destruct Ha. rewrite Hf. by apply list_elem_of_fmap_2.
  - destruct Ha. rewrite <- Hf. by apply list_elem_of_fmap_2.
Qed.




(** ** The theorems at concrete executions *)

Lemma reschedule_order_witness :
  let s := set_count 0 (run [Write None; Write None; Read None] new_lock) in
  _canTakeWriteLock s = true ∧
  _writers s = [{| w_promise := 1; w_token := None |}] ∧
  _readers (_processLockRequests s) = _readers s.
Proof.
  intros s. split; [reflexivity|]. split; [reflexivity|].
  apply (proj1 (reschedule_order s) {| w_promise := 1; w_token := None |} []);
    reflexivity.
Defined.

Lemma writer_non_starvation_witness :
  let ops := [Write None; Write None; Read None] in
  ∃ s1 hw,
    release 0 (run ops new_lock) = Return s1 ∧
    promises s1 !! 1%nat = Some (Writer, Resolved hw) ∧
    handles s1 !! hw = Some (WriteHandle false) ∧
    _readers s1 = [{| w_promise := 2; w_token := None |}].
Proof.
  intros ops.
  destruct (proj2 (writer_non_starvation ops) 0%nat
              {| w_promise := 1; w_token := None |})
    as (s1 & hw & Hrel & Hp & Hh & Hr & _); [reflexivity..|].
  exists s1, hw. auto.
Defined.

Lemma upgraded_implies_upgradeable_witness :
  let s := run [UpgradeableRead None; Upgrade 0 None] new_lock in
  is_Some (_upgradeable s) ∧ _count s = -1.
Proof.
  intros s. apply upgraded_implies_upgradeable.
  - apply boundary_call.
  - exists 1%nat. reflexivity.
Defined.

Lemma release_upgradeable_witness :
  let s := run [UpgradeableRead None; Read None] new_lock in
  ∃ e, release 0 s = Return (_processLockRequests e) ∧ _count e = 1 ∧
       _upgraded e = None ∧ _upgradeable e = None.
Proof.
  intros s.
  destruct (release_upgradeable s 0) as (e & Hr & _ & Hc & Hg & Hu & _);
    [reflexivity..|].
  exists e. auto.
Defined.


Lemma release_only_once_witness :
  let ops1 := [Read None; Write None] in
  (Release 0 ∉ ops1) ∧
  ∃ s', release 0 (run ops1 (take Reader new_lock).2) = Return s' ∧
        ∀ ops2, release 0 (run ops2 s') = Throw LockAlreadyReleased.
Proof.
  intros ops1.
  assert (Release 0 ∉ ops1) as Hn.
  { intros H. repeat (apply elem_of_cons in H as [H|H]; [discriminate H|]).
    by apply elem_of_nil in H. }
  split; [exact Hn|].
  apply (release_only_once Reader new_lock ops1); [by left|exact Hn].
Defined.

Lemma upgraded_handle_invalidated_witness :
  let s := run [UpgradeableRead None; Upgrade 0 None] new_lock in
  ∃ s', release 0 s = Return s' ∧
        ∀ ops, release 1 (run ops s') = Throw LockAlreadyReleased.
Proof.
  intros s. apply (upgraded_handle_invalidated s 0 1); reflexivity.
Defined.

Lemma upgrade_repeatable_witness :
  let s := run [UpgradeableRead None; Upgrade 0 None] new_lock in
  ∃ s', release 1 s = Return s' ∧
        handles s' !! 0%nat = Some UpgradeableHandle ∧
        _upgradeable s' = Some 0%nat ∧ _upgraded s' = None ∧ _count s' = 1.
Proof.
  intros s.
  apply (proj2 (proj2 (upgrade_repeatable s 0 1 eq_refl eq_refl eq_refl
                         eq_refl))); [reflexivity|by left].
Defined.

End ReaderWriterLockFacts.

(** * Further properties of ReaderWriterLock *)

Section MutualExclusion.
Import ReaderWriterLock.

(** A writer is alone: while a write handle is out, [_count] is [-1], no
    read handle and no other write handle is out, and there is neither an
    upgradeable reader nor an upgraded one. *)
Theorem writer_excludes ops hw :
  let s := run ops new_lock in
  handles s !! hw = Some (WriteHandle false) →
  _count s = -1 ∧
  (∀ h, handles s !! h ≠ Some (ReadHandle false)) ∧
  (∀ h, handles s !! h = Some (WriteHandle false) → h = hw) ∧
  _upgradeable s = None ∧ _upgraded s = None.
Proof.
  intros s Hw.
  pose proof (census_run ops new_lock census_new_lock) as Hc. fold s in Hc.
  destruct (writer_holding s hw Hc Hw) as (Hcount & Hr & Hone & Hu & Hg).
  repeat split; try done.
  - intros h Hh%live_read_le. lia.
  - intros h Hh. by apply (sole_writer s hw h).
Qed.

(** The upgraded writer is alone as well: while [_upgraded] is set, no
    read handle and no write handle is out. *)
Theorem upgraded_excludes ops g :
  let s := run ops new_lock in
  _upgraded s = Some g →
  (∀ h, handles s !! h ≠ Some (ReadHandle false)) ∧
  (∀ h, handles s !! h ≠ Some (WriteHandle false)).
Proof.
  intros s Hg.
  pose proof (census_run ops new_lock census_new_lock) as Hc. fold s in Hc.
  destruct Hc as [? _ _| _ _ _ _ ?|_ Hr Hw _ _]; try congruence.
  split; [intros h Hh%live_read_le|intros h Hh%live_write_le]; lia.
Qed.

(** [_count] never goes below [-1], and when it is not negative it is the
    number of read handles that are out, plus one for the upgradeable
    reader; no writer of either kind is in then. *)
Theorem count_is_census ops :
  let s := run ops new_lock in
  -1 ≤ _count s ∧
  (0 ≤ _count s →
   _count s = readers_in s + (if truthy (_upgradeable s) then 1 else 0) ∧
   writers_in s = 0 ∧ _upgraded s = None).
Proof.
  intros s.
  pose proof (census_run ops new_lock census_new_lock) as Hc. fold s in Hc.
  split.
  - destruct Hc as [_ _ ->| -> | ->]; try done.
    unfold readers_in. destruct (truthy _); lia.
  - intros Hn. by destruct (census_nonneg s Hc Hn) as (? & ? & ?).
Qed.

End MutualExclusion.

Section HandleLifetime.
Import ReaderWriterLock.

(** Upgradeable and upgrade handles are never overwritten in the heap. *)
Lemma step_handles_kind o s h x :
  x = UpgradeableHandle ∨ x = UpgradeHandle →
  handles s !! h = Some x → handles (step o s) !! h = Some x.
Proof.
  intros Hk Hx.
  destruct (decide (o = Release h)) as [->|Ho];
    [|by apply step_handles_ne].
  simpl. destruct (release h s) as [s'|] eqn:Hr; [|done].
  apply release_scheduling in Hr as (s1 & He & ->).
  destruct (extends_processLockRequests s1) as (Hp & _).
  eapply prefix_lookup_Some; [|done].
  revert He. unfold scheduling_entry. rewrite Hx.
  destruct Hk as [-> | ->]; case_bool_decide; try done;
    intros [= <-]; simpl; try done.
  by destruct (_count s =? -1).
Qed.

Lemma run_handles_kind ops s h x :
  x = UpgradeableHandle ∨ x = UpgradeHandle →
  handles s !! h = Some x → handles (run ops s) !! h = Some x.
Proof.
  revert s. induction ops as [|o ops IH]; intros s Hk Hx; [done|].
  apply IH; [done|]. by apply step_handles_kind.
Qed.

Lemma spent_upgrade u token s :
  handles s !! u = Some UpgradeableHandle → spent u s →
  upgrade u token s = Throw LockAlreadyReleased.
Proof.
  unfold spent, upgrade. intros ->. intros Hne.
  by rewrite bool_decide_eq_false_2.
Qed.

(** Once the upgradeable handle has been released, both of its methods
    throw "Lock already released." for good, whatever happens to the lock
    in between. *)
Theorem upgradeable_handle_dead s u :
  handles s !! u = Some UpgradeableHandle →
  _upgradeable s = Some u →
  ∃ s', release u s = Return s' ∧
        ∀ ops token,
          release u (run ops s') = Throw LockAlreadyReleased ∧
          upgrade u token (run ops s') = Throw LockAlreadyReleased.
Proof.
  intros Hu Hsu.
  assert (∃ s1, scheduling_entry u s = Some s1 ∧ spent u s1 ∧
                handles s1 !! u = Some UpgradeableHandle)
    as (s1 & He & Hs & Hh).
  { unfold scheduling_entry, spent. rewrite Hu, bool_decide_eq_true_2 by done.
    eexists. split; [done|]. simpl.
    destruct (_count s =? -1); simpl; by rewrite Hu. }
  exists (_processLockRequests s1). split.
  - apply release_scheduling. eauto.
  - intros ops token.
    assert (spent u (run ops (_processLockRequests s1))) as Hsp.
    { apply spent_run. revert Hs.
      apply spent_extends, extends_processLockRequests. }
    split; [by apply spent_release|].
    apply spent_upgrade; [|done].
    apply run_handles_kind; [by left|].
    destruct (extends_processLockRequests s1) as (Hp & _).
    by eapply prefix_lookup_Some.
Qed.

(** The handle of an upgrade releases once: a second [release()] throws,
    also after the upgradeable reader has upgraded again. *)
Theorem upgrade_handle_release_once s g :
  handles s !! g = Some UpgradeHandle →
  _upgraded s = Some g →
  ∃ s', release g s = Return s' ∧
        ∀ ops, release g (run ops s') = Throw LockAlreadyReleased.
Proof.
  intros Hg Hsg.
  assert (∃ s1, scheduling_entry g s = Some s1 ∧ spent g s1)
    as (s1 & He & Hs).
  { unfold scheduling_entry, spent. rewrite Hg, bool_decide_eq_true_2 by done.
    eexists. split; [done|]. simpl. by rewrite Hg. }
  exists (_processLockRequests s1). split.
  - apply release_scheduling. eauto.
  - intros ops. apply spent_release, spent_run.
    revert Hs. apply spent_extends, extends_processLockRequests.
Qed.

End HandleLifetime.

Section QueueShape.
Import ReaderWriterLock.

Lemma StronglySorted_sublist {A} (R : relation A) (l1 l2 : list A) :
  l1 `sublist_of` l2 → StronglySorted R l2 → StronglySorted R l1.
Proof.
  intros Hsub. induction Hsub as [|x l1 l2 Hsub IH|x l1 l2 Hsub IH];
    rewrite ?StronglySorted_cons; [done| |by intros [_ ?%IH]].
  intros [Hall Hs]. split; [|auto].
  rewrite Forall_forall in *. intros y Hy. apply Hall.
  by eapply elem_of_sublist.
Qed.

Lemma processWrite_queue s q :
  queue q (_processWriteLockRequest s).2 `sublist_of` queue q s.
Proof.
  unfold _processWriteLockRequest. case_match; [|done].
  destruct (_writers s) as [|w ws] eqn:Hw; [done|]. simpl.
  rewrite resolver_queue. destruct q; simpl; try done.
  rewrite Hw. by apply sublist_cons.
Qed.

Lemma processUpgrade_queue s q :
  queue q (_processUpgradeRequest s).2 `sublist_of` queue q s.
Proof.
  unfold _processUpgradeRequest. case_match; [|done].
  destruct (_upgrades s) as [|w ws] eqn:Hw; [done|]. simpl.
  rewrite resolver_queue. destruct q; simpl; try done.
  rewrite Hw. by apply sublist_cons.
Qed.

Lemma processUpgradeable_queue s q :
  queue q (_processUpgradeableReadLockRequest s) `sublist_of` queue q s.
Proof.
  unfold _processUpgradeableReadLockRequest. case_match; [|done].
  destruct (_upgradeables s) as [|w ws] eqn:Hw; [done|].
  rewrite resolver_queue. destruct q; simpl; try done.
  rewrite Hw. by apply sublist_cons.
Qed.

Lemma processRead_queue s q :
  queue q (_processReadLockRequests s) `sublist_of` queue q s.
Proof.
  unfold _processReadLockRequests. case_match; [|done].
  rewrite readers_cleared_queue. case_decide; [apply sublist_nil_l|done].
Qed.

(** Scheduling only takes waiters off the queues. *)
Lemma processLockRequests_queue s q :
  queue q (_processLockRequests s) `sublist_of` queue q s.
Proof.
  unfold _processLockRequests.
  pose proof (processWrite_queue s q) as H1.
  destruct (_processWriteLockRequest s) as [[] s1]; [done|]. simpl in H1.
  pose proof (processUpgrade_queue s1 q) as H2.
  destruct (_processUpgradeRequest s1) as [[] s2]; simpl in H2;
    [by etrans|].
  etrans; [apply processRead_queue|].
  etrans; [apply processUpgradeable_queue|]. by etrans.
Qed.

Lemma notify_queue p s q : queue q (notify p s) `sublist_of` queue q s.
Proof.
  unfold notify. destruct (list_find _ _) as [[i [q' w]]|]; [|done].
  destruct (is_cancelled _ s); [|done]. unfold on_cancel.
  destruct (on_list _ _); [|by destruct q].
  rewrite settle_queue, set_queue_cases.
  case_decide; [subst; apply sublist_filter|by destruct q].
Qed.

(** A call either leaves a queue a sub-queue of what it was, or parks the
    request it makes at the tail. *)
Lemma step_queue o s q :
  queue q (step o s) `sublist_of` queue q s ∨
  ∃ token,
    queue q (step o s) =
    queue q s ++ [{| w_promise := length (promises s); w_token := token |}].
Proof.
  assert (∀ q' t,
            queue q (request q' t s).2 `sublist_of` queue q s ∨
            ∃ token,
              queue q (request q' t s).2 =
              queue q s ++
              [{| w_promise := length (promises s); w_token := token |}])
    as Hreq.
  { intros q' t. rewrite request_unfold. simpl.
    destruct (is_cancelled t s); [left; by destruct q|].
    destruct (canTake q' s).
    { left. change (queue q (set_promises ?l ?s)) with (queue q s).
      by rewrite take_queue. }
    change (queue q (register ?a ?b ?c)) with (queue q c).
    rewrite set_queue_cases. case_decide.
    - subst. right. by exists t.
    - left. by destruct q. }
  destruct o as [t|t|t|hold t|hold|t|p]; simpl; try apply Hreq.
  - destruct (upgrade hold t s) as [[p s']|] eqn:Hu; [|by left].
    apply upgrade_Return in Hu as [_ Hu].
    change s' with (p, s').2. rewrite Hu. apply Hreq.
  - left. destruct (release hold s) eqn:Hr; [|done].
    apply release_scheduling in Hr as (s1 & He & ->).
    rewrite <- (scheduling_entry_queue hold s s1 q He).
    apply processLockRequests_queue.
  - left. by destruct q.
  - left. apply notify_queue.
Qed.

Lemma arrival_order_step o s :
  queues_wf s → arrival_order s → arrival_order (step o s).
Proof.
  intros Hwf Ha q. destruct (step_queue o s q) as [Hsub|[token ->]].
  - eapply StronglySorted_sublist; [|apply Ha]. by apply fmap_sublist.
  - rewrite fmap_app. apply StronglySorted_app.
    split; [|split; [apply Ha|]].
    + intros p1 p2 (w & -> & Hw)%list_elem_of_fmap
        ->%list_elem_of_singleton.
      simpl. by eapply queues_wf_lt.
    + simpl. repeat constructor.
Qed.

(** Every queue holds its waiters in the order in which they asked: the
    promise numbers, which count the requests, increase along the queue.
    So the waiter the scheduler shifts off a queue is the one that has
    waited longest on it. *)
Theorem queues_in_arrival_order ops q :
  let s := run ops new_lock in
  StronglySorted lt (w_promise <$> queue q s) ∧
  (∀ w ws x, queue q s = w :: ws → x ∈ ws →
             (w_promise w < w_promise x)%nat).
Proof.
  intros s.
  assert (queues_wf s ∧ arrival_order s) as [_ Ha].
  { unfold s. clear s.
    assert (∀ s0, queues_wf s0 → writer_order s0 → arrival_order s0 →
              queues_wf (run ops s0) ∧ arrival_order (run ops s0)) as Hrun.
    { induction ops as [|o ops IH]; intros s0 Hwf Ho Ha; [done|].
      destruct (orderly_step o s0 Hwf Ho). simpl.
      apply IH; try done. by apply arrival_order_step. }
    apply Hrun;
      [apply queues_wf_new_lock|apply writer_order_new_lock|].
    intros q'. destruct q'; simpl; constructor. }
  split; [apply Ha|]. intros w ws x Hq Hx.
  specialize (Ha q). rewrite Hq, fmap_cons, StronglySorted_cons in Ha.
  destruct Ha as [Hall _]. rewrite Forall_forall in Hall.
  apply Hall. by apply list_elem_of_fmap_2.
Qed.

(** A parked request sits on one queue only, once, and its promise is
    open; so a promise that is resolved or rejected belongs to no parked
    request. *)
Theorem parked_requests_open ops q w :
  let s := run ops new_lock in
  w ∈ queue q s →
  promises s !! w_promise w = Some (q, Unsettled) ∧
  (∀ q' w', w' ∈ queue q' s → w_promise w' = w_promise w →
            q' = q ∧ w' = w).
Proof.
  intros s Hw.
  destruct (orderly_run ops new_lock queues_wf_new_lock writer_order_new_lock)
    as [Hwf _]. fold s in Hwf.
  split; [by apply Hwf|]. intros q' w' Hw' Heq.
  assert (q' = q) as -> by (by eapply (queues_wf_same_role s q' q w' w)).
  split; [done|].
  apply (NoDup_fmap_eq w_promise (queue q s)); try done. apply Hwf.
Qed.

End QueueShape.

Section Registrations.
Import ReaderWriterLock.

Lemma set_queue_registrations q l s :
  registrations (set_queue q l s) = registrations s.
Proof. by destruct q. Qed.

Lemma unregister_elem w s q x :
  (q, x) ∈ registrations (unregister w s) ↔
  w_promise x ≠ w_promise w ∧ (q, x) ∈ registrations s.
Proof.
  unfold unregister. simpl. rewrite list_elem_of_filter. unfold same_node.
  simpl. by rewrite bool_decide_eq_false.
Qed.

Lemma resolver_registrations q w s :
  registrations (resolver q w s) = registrations (unregister w s).
Proof.
  rewrite resolver_unfold. destruct (is_cancelled _ s);
    by rewrite settle_registrations, ?take_registrations.
Qed.

Lemma registered_parked_ext s s' :
  (∀ q, queue q s' = queue q s) → registrations s' = registrations s →
  registered_parked s → registered_parked s'.
Proof. intros Hq Hr H q w. rewrite Hq, Hr. apply H. Qed.

(** Taking the waiter [w] off queue [q] and dropping its callback. *)
Lemma registered_parked_remove q w s s' :
  queues_wf s → registered_parked s → w ∈ queue q s →
  (∀ q' x, x ∈ queue q' s' ↔ x ∈ queue q' s ∧ x ≠ w) →
  (∀ q' x, (q', x) ∈ registrations s' ↔
           w_promise x ≠ w_promise w ∧ (q', x) ∈ registrations s) →
  registered_parked s'.
Proof.
  intros Hwf Hrp Hw Hq Hr q' x. rewrite Hq, Hr, (Hrp q' x).
  split; intros [H1 H2]; split; try done.
  - by intros ->.
  - intros Heq. apply H2.
    assert (q' = q) as -> by (by eapply (queues_wf_same_role s q' q x w)).
    apply (NoDup_fmap_eq w_promise (queue q s)); try done. apply Hwf.
Qed.

Lemma queue_tail_elem s q w ws q' x :
  queues_wf s → queue q s = w :: ws →
  x ∈ queue q' (set_queue q ws s) ↔ x ∈ queue q' s ∧ x ≠ w.
Proof.
  intros Hwf Hq. rewrite set_queue_cases.
  destruct (Hwf q) as [Hnd _]. rewrite Hq in Hnd.
  rewrite fmap_cons in Hnd. apply NoDup_cons in Hnd as [Hw _].
  case_decide as Hqq.
  - subst q'. rewrite Hq, elem_of_cons. split.
    + intros Hx. split; [by right|]. intros ->.
      apply Hw. by apply list_elem_of_fmap_2.
    + by intros [[->|Hx] Hne].
  - split; [|by intros [? _]]. intros Hx. split; [done|]. intros ->.
    apply Hqq. eapply (queues_wf_same_role s q q' w w); eauto.
    rewrite Hq. by left.
Qed.

Lemma registered_parked_wake q w ws s :
  queues_wf s → registered_parked s → queue q s = w :: ws →
  registered_parked (resolver q w (set_queue q ws s)).
Proof.
  intros Hwf Hrp Hq.
  apply (registered_parked_remove q w s); try done.
  - rewrite Hq. by left.
  - intros q' x. rewrite resolver_queue. by apply queue_tail_elem.
  - intros q' x.
    by rewrite resolver_registrations, unregister_elem, set_queue_registrations.
Qed.

Lemma readers_registrations l s q x :
  (q, x) ∈ registrations (foldl (λ s w, resolver Reader w s) s l) ↔
  (w_promise x ∉ w_promise <$> l) ∧ (q, x) ∈ registrations s.
Proof.
  revert s. induction l as [|w l IH]; intros s; simpl.
  - split; [|by intros [_ ?]]. intros H. split; [|done].
    by intros ?%elem_of_nil.
  - rewrite IH, resolver_registrations, unregister_elem, not_elem_of_cons.
    tauto.
Qed.

Lemma registered_parked_processRead s :
  queues_wf s → registered_parked s →
  registered_parked (_processReadLockRequests s).
Proof.
  intros Hwf Hrp. unfold _processReadLockRequests. case_match; [|done].
  intros q x. rewrite readers_cleared_queue.
  change (registrations (set_readers ?l ?s)) with (registrations s).
  rewrite readers_registrations, (Hrp q x). case_decide as Hq.
  - subst q. split; [|by intros ?%elem_of_nil].
    intros [Hn Hx]. destruct Hn. by apply list_elem_of_fmap_2.
  - split; [by intros [_ ?]|]. intros Hx. split; [|done].
    intros (y & Heq & Hy)%list_elem_of_fmap. apply Hq.
    by eapply (queues_wf_same_role s q Reader x y).
Qed.

Lemma registered_parked_processLockRequests s :
  queues_wf s → registered_parked s →
  registered_parked (_processLockRequests s).
Proof.
  intros Hwf Hrp. unfold _processLockRequests.
  assert (queues_wf (_processWriteLockRequest s).2 ∧
          registered_parked (_processWriteLockRequest s).2) as [Hwf1 Hrp1].
  { split; [by apply queues_wf_processWrite|].
    unfold _processWriteLockRequest. case_match; [|done].
    destruct (_writers s) as [|w ws] eqn:Hq; [done|].
    by apply (registered_parked_wake Writer w ws s). }
  destruct (_processWriteLockRequest s) as [[] s1]; [done|]. simpl in *.
  assert (queues_wf (_processUpgradeRequest s1).2 ∧
          registered_parked (_processUpgradeRequest s1).2) as [Hwf2 Hrp2].
  { split; [by apply queues_wf_processUpgrade|].
    unfold _processUpgradeRequest. case_match; [|done].
    destruct (_upgrades s1) as [|w ws] eqn:Hq; [done|].
    by apply (registered_parked_wake Upgrader w ws s1). }
  destruct (_processUpgradeRequest s1) as [[] s2]; [done|]. simpl in *.
  apply registered_parked_processRead;
    [by apply queues_wf_processUpgradeable|].
  unfold _processUpgradeableReadLockRequest. case_match; [|done].
  destruct (_upgradeables s2) as [|w ws] eqn:Hq; [done|].
  by apply (registered_parked_wake UpgradeableReader w ws s2).
Qed.

Lemma scheduling_entry_registrations hold s s1 :
  scheduling_entry hold s = Some s1 → registrations s1 = registrations s.
Proof.
  unfold scheduling_entry. by repeat case_match; try done; intros [= <-].
Qed.

Lemma registered_parked_request q token s :
  registered_parked s → registered_parked (request q token s).2.
Proof.
  intros Hrp. rewrite request_unfold. simpl.
  destruct (is_cancelled token s); [by apply (registered_parked_ext s)|].
  destruct (canTake q s).
  { apply (registered_parked_ext s); [|by rewrite <- (take_registrations q s)|done].
    intros q'. by rewrite <- (take_queue q s q'). }
  intros q' x. unfold register. simpl.
  change (queue q' (set_registrations ?r ?s)) with (queue q' s).
  rewrite set_queue_registrations, set_queue_cases. simpl.
  rewrite elem_of_app, list_elem_of_singleton, (Hrp q' x).
  case_decide as Hq.
  - subst q'. rewrite elem_of_app, list_elem_of_singleton.
    change (queue q (set_promises ?l ?s)) with (queue q s).
    split; (intros [?|?]; [by left|right]); congruence.
  - change (queue q' (set_promises ?l ?s)) with (queue q' s).
    split; [|by left]. intros [?|?]; [done|congruence].
Qed.

Lemma notify_found p s i q w :
  list_find (λ r, w_promise r.2 = p) (registrations s) = Some (i, (q, w)) →
  (q, w) ∈ registrations s ∧ w_promise w = p.
Proof.
  intros (Hi & Hp & _)%list_find_Some. split; [|done].
  by eapply list_elem_of_lookup_2.
Qed.

Lemma registered_parked_notify p s :
  queues_wf s → registered_parked s → registered_parked (notify p s).
Proof.
  intros Hwf Hrp. unfold notify.
  destruct (list_find _ _) as [[i [q w]]|] eqn:Hf; [|done].
  apply notify_found in Hf as [Hreg _].
  destruct (is_cancelled _ s); [|done].
  assert (w ∈ queue q s) as Hw by (by apply Hrp).
  unfold on_cancel.
  change (queue q (unregister w s)) with (queue q s).
  rewrite on_list_intro by done.
  apply (registered_parked_remove q w s); try done.
  - intros q' x. rewrite settle_queue, set_queue_cases.
    change (queue ?q (unregister w s)) with (queue q s).
    case_decide as Hq.
    + subst q'. rewrite deleteNode_elem. split.
      * intros [Hne Hx]. split; [done|]. by intros ->.
      * intros [Hx Hne]. split; [|done]. intros Heq. apply Hne.
        apply (NoDup_fmap_eq w_promise (queue q s)); try done. apply Hwf.
    + split; [|by intros [? _]]. intros Hx. split; [done|]. intros ->.
      apply Hq. by eapply (queues_wf_same_role s q q' w w).
  - intros q' x.
    by rewrite settle_registrations, set_queue_registrations, unregister_elem.
Qed.

Lemma registered_parked_step o s :
  queues_wf s → registered_parked s → registered_parked (step o s).
Proof.
  intros Hwf Hrp. destruct o as [t|t|t|hold t|hold|t|p]; simpl;
    try by apply registered_parked_request.
  - destruct (upgrade hold t s) as [[p s']|] eqn:Hu; [|done].
    apply upgrade_Return in Hu as [_ Hu].
    change s' with (p, s').2. rewrite Hu. by apply registered_parked_request.
  - destruct (release hold s) eqn:Hr; [|done].
    apply release_scheduling in Hr as (s1 & He & ->).
    apply registered_parked_processLockRequests.
    + revert Hwf. apply queues_wf_ext;
        eauto using scheduling_entry_queue, scheduling_entry_promises.
    + revert Hrp. apply registered_parked_ext;
        eauto using scheduling_entry_queue, scheduling_entry_registrations.
  - revert Hrp. by apply registered_parked_ext.
  - by apply registered_parked_notify.
Qed.

Lemma registered_parked_run ops s :
  queues_wf s → writer_order s → registered_parked s →
  registered_parked (run ops s).
Proof.
  revert s. induction ops as [|o ops IH]; intros s Hwf Ho Hrp; [done|].
  destruct (orderly_step o s Hwf Ho). simpl.
  apply IH; try done. by apply registered_parked_step.
Qed.

Lemma registered_parked_new_lock : registered_parked new_lock.
Proof. intros q w. destruct q; simpl; by rewrite !elem_of_nil. Qed.

(** The callbacks registered with tokens are exactly those of the parked
    requests: a request is registered when it is parked, and unregistered
    when it is woken or cancelled. *)
Theorem registrations_are_parked ops q w :
  let s := run ops new_lock in
  (q, w) ∈ registrations s ↔ w ∈ queue q s.
Proof.
  intros s. revert q w. change (registered_parked s).
  apply registered_parked_run.
  - apply queues_wf_new_lock.
  - apply writer_order_new_lock.
  - apply registered_parked_new_lock.
Qed.

(** A cancellation that arrives when the promise of the request has been
    settled, by a wake-up or by an earlier cancellation, does nothing. *)
Theorem notify_after_settle ops p :
  let s := run ops new_lock in
  (∀ q, promises s !! p ≠ Some (q, Unsettled)) →
  notify p s = s.
Proof.
  intros s Hp. unfold notify.
  destruct (list_find _ _) as [[i [q w]]|] eqn:Hf; [|done].
  apply notify_found in Hf as [Hreg Hw].
  destruct (orderly_run ops new_lock queues_wf_new_lock writer_order_new_lock)
    as [Hwf Ho]. fold s in Hwf.
  apply (registered_parked_run ops new_lock queues_wf_new_lock
           writer_order_new_lock registered_parked_new_lock) in Hreg.
  apply (Hwf q) in Hreg. rewrite Hw in Hreg. by destruct (Hp q).
Qed.

End Registrations.

Section UpgradePriority.
Import ReaderWriterLock.

Lemma reader_barrier_wake b q w ws s :
  queues_wf s → reader_barrier b s → queue q s = w :: ws → q ≠ Reader →
  reader_barrier b (resolver q w (set_queue q ws s)).
Proof.
  intros Hwf Ho Hq Hne x p hold Hx Hlt Hp.
  rewrite resolver_queue, set_queue_cases in Hx.
  assert (x ∈ queue b s) as Hx'.
  { case_decide; [|done]. subst q. rewrite Hq. by right. }
  destruct (decide (p = w_promise w)) as [->|Hpw].
  - assert (promises s !! w_promise w = Some (q, Unsettled)) as Hw
        by (apply Hwf; rewrite Hq; by left).
    rewrite resolver_promises_eq in Hp by (by rewrite set_queue_promises).
    congruence.
  - rewrite resolver_promises_ne, set_queue_promises in Hp by done.
    by eapply Ho.
Qed.

Lemma can_take_read_empty b s :
  b = Writer ∨ b = Upgrader → _canTakeReadLock s = true → queue b s = [].
Proof.
  unfold _canTakeReadLock. rewrite !andb_true_iff, !Nat.eqb_eq.
  intros [-> | ->] [[[_ Hw] Hu] _]; by apply nil_length_inv.
Qed.

Lemma reader_barrier_processRead b s :
  b = Writer ∨ b = Upgrader →
  reader_barrier b s → reader_barrier b (_processReadLockRequests s).
Proof.
  intros Hb Ho. unfold _processReadLockRequests.
  destruct (_canTakeReadLock s) eqn:Hcan; [|done].
  intros w p hold. rewrite readers_cleared_queue.
  rewrite (can_take_read_empty b s Hb Hcan).
  case_decide; by intros ?%elem_of_nil.
Qed.

Lemma reader_barrier_processLockRequests b s :
  b = Writer ∨ b = Upgrader →
  queues_wf s → reader_barrier b s →
  reader_barrier b (_processLockRequests s).
Proof.
  intros Hb Hwf Ho. unfold _processLockRequests.
  assert (reader_barrier b (_processWriteLockRequest s).2) as Ho1.
  { unfold _processWriteLockRequest. case_match; [|done].
    destruct (_writers s) as [|w ws] eqn:Hq; [done|].
    by apply (reader_barrier_wake b Writer w ws s). }
  pose proof (queues_wf_processWrite s Hwf) as Hwf1.
  destruct (_processWriteLockRequest s) as [[] s1]; [done|]. simpl in *.
  assert (reader_barrier b (_processUpgradeRequest s1).2) as Ho2.
  { unfold _processUpgradeRequest. case_match; [|done].
    destruct (_upgrades s1) as [|w ws] eqn:Hq; [done|].
    by apply (reader_barrier_wake b Upgrader w ws s1). }
  pose proof (queues_wf_processUpgrade s1 Hwf1) as Hwf2.
  destruct (_processUpgradeRequest s1) as [[] s2]; [done|]. simpl in *.
  apply reader_barrier_processRead; [done|].
  unfold _processUpgradeableReadLockRequest. case_match; [|done].
  destruct (_upgradeables s2) as [|w ws] eqn:Hq; [done|].
  by apply (reader_barrier_wake b UpgradeableReader w ws s2).
Qed.

Lemma reader_barrier_request b q token s :
  b = Writer ∨ b = Upgrader →
  reader_barrier b s → reader_barrier b (request q token s).2.
Proof.
  intros Hb Ho. rewrite request_unfold. simpl.
  assert (∀ s' r, queue b s' = queue b s →
            promises s' = promises s ++ [(q, r)] →
            (∀ hold, r = Resolved hold → q = Reader → queue b s = []) →
            reader_barrier b s') as Hgrow.
  { intros s' r Hw Hp Hr w p hold. rewrite Hw, Hp. intros Hin Hlt Hl.
    destruct (decide (p < length (promises s))%nat) as [Hp'|Hp'].
    - rewrite lookup_app_l in Hl by done. by eapply Ho.
    - rewrite lookup_app_r in Hl by lia.
      destruct (p - length (promises s))%nat; simpl in Hl; [|done].
      injection Hl as -> ->. rewrite (Hr hold) in Hin by done.
      by apply elem_of_nil in Hin. }
  destruct (is_cancelled token s).
  { eapply Hgrow; [|done|done]. by destruct b. }
  destruct (canTake q s) eqn:Hcan.
  { eapply Hgrow; [|done|].
    - change (queue b (set_promises ?l ?s)) with (queue b s).
      apply take_queue.
    - intros hold _ ->. by apply can_take_read_empty. }
  intros w p hold.
  change (queue b (register ?x ?y ?z)) with (queue b z).
  change (promises (register ?x ?y ?z)) with (promises z).
  rewrite set_queue_cases, set_queue_promises. simpl.
  change (queue b (set_promises ?l ?s)) with (queue b s).
  intros Hin Hlt Hl.
  assert (p < length (promises s))%nat as Hp'.
  { pose proof (lookup_lt_Some _ _ _ Hl) as Hlen.
    rewrite length_app in Hlen. simpl in Hlen.
    destruct (decide (p = length (promises s))) as [->|]; [|lia].
    by rewrite lookup_app_r, Nat.sub_diag in Hl. }
  rewrite lookup_app_l in Hl by done.
  case_decide; [subst q|by eapply Ho].
  apply elem_of_app in Hin as [Hin| ->%list_elem_of_singleton];
    [by eapply Ho|]. simpl in Hlt. lia.
Qed.

Lemma reader_barrier_notify b p s :
  reader_barrier b s → reader_barrier b (notify p s).
Proof.
  intros Ho. unfold notify.
  destruct (list_find _ _) as [[i [q w]]|]; [|done].
  destruct (is_cancelled _ s); [|done]. unfold on_cancel.
  change (queue q (unregister w s)) with (queue q s).
  destruct (on_list _ _); [|intros x p' hold; apply Ho].
  intros x p' hold. rewrite settle_queue, set_queue_cases.
  change (queue b (unregister w s)) with (queue b s).
  intros Hx Hlt [Hp|(_ & ? & _)]%settle_promises_resolved; [|done].
  rewrite set_queue_promises in Hp.
  eapply Ho; [|done|done].
  case_decide; [|done]. subst q. by apply deleteNode_elem in Hx as [_ Hx].
Qed.

Lemma reader_barrier_step b o s :
  b = Writer ∨ b = Upgrader →
  queues_wf s → reader_barrier b s → reader_barrier b (step o s).
Proof.
  intros Hb Hwf Ho. destruct o as [t|t|t|hold t|hold|t|p]; simpl;
    try by apply reader_barrier_request.
  - destruct (upgrade hold t s) as [[p s']|] eqn:Hu; [|done].
    apply upgrade_Return in Hu as [_ Hu].
    change s' with (p, s').2. rewrite Hu. by apply reader_barrier_request.
  - destruct (release hold s) eqn:Hr; [|done].
    apply release_scheduling in Hr as (s1 & He & ->).
    apply reader_barrier_processLockRequests; [done| |].
    + revert Hwf. apply queues_wf_ext;
        eauto using scheduling_entry_queue, scheduling_entry_promises.
    + intros w p h.
      rewrite (scheduling_entry_queue hold s s1 b He),
        (scheduling_entry_promises hold s s1 He). apply Ho.
  - intros w p hold. apply Ho.
  - by apply reader_barrier_notify.
Qed.

(** Upgrades have the same priority over readers as writers: while an
    upgrade is parked, no read request that arrived after it holds the
    lock. *)
Theorem upgrade_bars_later_readers ops w p hold :
  let s := run ops new_lock in
  w ∈ _upgrades s → (w_promise w < p)%nat →
  promises s !! p ≠ Some (Reader, Resolved hold).
Proof.
  intros s. revert w p hold. change (reader_barrier Upgrader s).
  unfold s. clear s.
  assert (∀ s0, queues_wf s0 → writer_order s0 →
            reader_barrier Upgrader s0 →
            reader_barrier Upgrader (run ops s0)) as Hrun.
  { induction ops as [|o ops IH]; intros s0 Hwf Ho Hb; [done|].
    destruct (orderly_step o s0 Hwf Ho). simpl.
    apply IH; try done. apply reader_barrier_step; auto. }
  apply Hrun; [apply queues_wf_new_lock|apply writer_order_new_lock|].
  intros w p hold Hw. by apply elem_of_nil in Hw.
Qed.

End UpgradePriority.

Section Handover.
Import ReaderWriterLock.

Lemma scheduling_entry_handles_length hold s e :
  scheduling_entry hold s = Some e → length (handles e) = length (handles s).
Proof.
  unfold scheduling_entry. repeat case_match; try done; intros [= <-];
    simpl; by rewrite ?length_insert.
Qed.

Lemma resolver_count q w s :
  is_cancelled (w_token w) s = false →
  _count (resolver q w s) = _count (take q s).2.
Proof.
  intros Hc. rewrite resolver_unfold, Hc, settle_count. by destruct q.
Qed.

Lemma resolver_upgraded q w s :
  is_cancelled (w_token w) s = false →
  _upgraded (resolver q w s) = _upgraded (take q s).2.
Proof.
  intros Hc. rewrite resolver_unfold, Hc, settle_upgraded. by destruct q.
Qed.

Lemma resolver_upgradeable q w s :
  is_cancelled (w_token w) s = false →
  _upgradeable (resolver q w s) = _upgradeable (take q s).2.
Proof.
  intros Hc. rewrite resolver_unfold, Hc, settle_upgradeable. by destruct q.
Qed.

Lemma resolver_rejects q w s :
  is_cancelled (w_token w) s = true →
  resolver q w s = settle (w_promise w) (Rejected CancelError) (unregister w s).
Proof. intros Hc. by rewrite resolver_unfold, Hc. Qed.

(** A release that leaves the lock free hands it to the writer that has
    waited longest, and to nobody else. *)
Theorem release_hands_over_to_writer ops hold e x rest :
  let s := run ops new_lock in
  scheduling_entry hold s = Some e → _count e = 0 →
  _writers s = x :: rest → is_cancelled (w_token x) s = false →
  ∃ s',
    release hold s = Return s' ∧
    promises s' !! w_promise x
    = Some (Writer, Resolved (length (handles s))) ∧
    handles s' !! length (handles s) = Some (WriteHandle false) ∧
    _count s' = -1 ∧
    _writers s' = rest ∧ _readers s' = _readers s ∧
    _upgradeables s' = _upgradeables s ∧ _upgrades s' = _upgrades s ∧
    (∀ p, p ≠ w_promise x → promises s' !! p = promises s !! p).
Proof.
  intros s He Hc Hw Hx.
  destruct (orderly_run ops new_lock queues_wf_new_lock writer_order_new_lock)
    as [Hwf _]. fold s in Hwf.
  pose proof (scheduling_entry_queue hold s e Writer He) as Hqw.
  pose proof (scheduling_entry_queue hold s e Reader He) as Hqr.
  pose proof (scheduling_entry_queue hold s e Upgrader He) as Hqu.
  pose proof (scheduling_entry_queue hold s e UpgradeableReader He) as Hqa.
  pose proof (scheduling_entry_promises hold s e He) as Hp.
  pose proof (scheduling_entry_handles_length hold s e He) as Hlen.
  pose proof (scheduling_entry_cancellationRequested hold s e He) as Hcr.
  simpl in Hqw, Hqr, Hqu, Hqa.
  assert (is_cancelled (w_token x) (set_writers rest e) = false) as Hx'
      by (by rewrite (is_cancelled_ext _ _ s)).
  assert (_processLockRequests e = resolver Writer x (set_writers rest e))
    as Hs'.
  { unfold _processLockRequests, _processWriteLockRequest, _canTakeWriteLock.
    by rewrite Hc, Hqw, Hw. }
  exists (_processLockRequests e).
  split; [apply release_scheduling; eauto|]. rewrite Hs'.
  split; [|split; [|split; [|split; [|split; [|split; [|split]]]]]].
  - rewrite resolver_promises_eq, Hx'; simpl; [by rewrite Hlen|].
    rewrite Hp. apply (Hwf Writer). simpl. rewrite Hw. by left.
  - rewrite resolver_handles by done. simpl.
    by rewrite lookup_app_r, Hlen, Nat.sub_diag by lia.
  - by rewrite resolver_count.
  - by rewrite (resolver_queue Writer x _ Writer).
  - by rewrite (resolver_queue Writer x _ Reader).
  - by rewrite (resolver_queue Writer x _ UpgradeableReader).
  - by rewrite (resolver_queue Writer x _ Upgrader).
  - intros p Hne. rewrite resolver_promises_ne by done. simpl. by rewrite Hp.
Qed.

(** A release that leaves the upgradeable reader as the only holder lets
    the upgrade it is waiting for through: the waiting [upgrade] is
    resolved, [_upgraded] is set and [_count] becomes [-1]. *)
Theorem release_hands_over_to_upgrade ops hold e x rest u :
  let s := run ops new_lock in
  scheduling_entry hold s = Some e →
  _count e = 1 → _upgradeable e = Some u → _upgraded e = None →
  _upgrades s = x :: rest → is_cancelled (w_token x) s = false →
  ∃ s',
    release hold s = Return s' ∧
    promises s' !! w_promise x
    = Some (Upgrader, Resolved (length (handles s))) ∧
    handles s' !! length (handles s) = Some UpgradeHandle ∧
    _upgraded s' = Some (length (handles s)) ∧
    _upgradeable s' = Some u ∧
    _count s' = -1 ∧
    _upgrades s' = rest ∧ _readers s' = _readers s ∧
    _upgradeables s' = _upgradeables s ∧ _writers s' = _writers s.
Proof.
  intros s He Hc Hu Hg Hw Hx.
  destruct (orderly_run ops new_lock queues_wf_new_lock writer_order_new_lock)
    as [Hwf _]. fold s in Hwf.
  pose proof (scheduling_entry_queue hold s e Writer He) as Hqw.
  pose proof (scheduling_entry_queue hold s e Reader He) as Hqr.
  pose proof (scheduling_entry_queue hold s e Upgrader He) as Hqu.
  pose proof (scheduling_entry_queue hold s e UpgradeableReader He) as Hqa.
  pose proof (scheduling_entry_promises hold s e He) as Hp.
  pose proof (scheduling_entry_handles_length hold s e He) as Hlen.
  simpl in Hqw, Hqr, Hqu, Hqa.
  assert (is_cancelled (w_token x) (set_upgrades rest e) = false) as Hx'.
  { rewrite (is_cancelled_ext _ _ s); [done|].
    by rewrite <- (scheduling_entry_cancellationRequested hold s e He). }
  assert (_processLockRequests e = resolver Upgrader x (set_upgrades rest e))
    as Hs'.
  { unfold _processLockRequests, _processWriteLockRequest, _canTakeWriteLock,
      _processUpgradeRequest, _canTakeUpgradeLock.
    rewrite Hc. simpl. by rewrite Hc, Hu, Hg, Hqu, Hw. }
  exists (_processLockRequests e).
  split; [apply release_scheduling; eauto|]. rewrite Hs'.
  rewrite resolver_handles, resolver_upgraded, resolver_upgradeable,
    resolver_count by done.
  rewrite (resolver_queue Upgrader x _ Upgrader),
    (resolver_queue Upgrader x _ Reader),
    (resolver_queue Upgrader x _ UpgradeableReader),
    (resolver_queue Upgrader x _ Writer). simpl.
  rewrite lookup_app_r, Hlen, Nat.sub_diag by lia.
  repeat split; try done.
  rewrite resolver_promises_eq, Hx'; simpl; [by rewrite Hlen|].
  rewrite Hp. apply (Hwf Upgrader). simpl. rewrite Hw. by left.
Qed.

(** When the token of the first parked writer is cancelled and its
    callback has not run yet, a release that leaves the lock free rejects
    that writer and wakes nobody else: the lock stays free, and the
    requests parked behind the writer stay parked. *)
Theorem release_meets_cancelled_writer ops hold e x rest :
  let s := run ops new_lock in
  scheduling_entry hold s = Some e → _count e = 0 →
  _writers s = x :: rest → is_cancelled (w_token x) s = true →
  ∃ s',
    release hold s = Return s' ∧
    promises s' !! w_promise x = Some (Writer, Rejected CancelError) ∧
    _count s' = 0 ∧ handles s' = handles e ∧
    _writers s' = rest ∧ _readers s' = _readers s ∧
    _upgradeables s' = _upgradeables s ∧ _upgrades s' = _upgrades s ∧
    (∀ p, p ≠ w_promise x → promises s' !! p = promises s !! p).
Proof.
  intros s He Hc Hw Hx.
  destruct (orderly_run ops new_lock queues_wf_new_lock writer_order_new_lock)
    as [Hwf _]. fold s in Hwf.
  pose proof (scheduling_entry_queue hold s e Writer He) as Hqw.
  pose proof (scheduling_entry_queue hold s e Reader He) as Hqr.
  pose proof (scheduling_entry_queue hold s e Upgrader He) as Hqu.
  pose proof (scheduling_entry_queue hold s e UpgradeableReader He) as Hqa.
  pose proof (scheduling_entry_promises hold s e He) as Hp.
  simpl in Hqw, Hqr, Hqu, Hqa.
  assert (is_cancelled (w_token x) (set_writers rest e) = true) as Hx'.
  { rewrite (is_cancelled_ext _ _ s); [done|].
    by rewrite <- (scheduling_entry_cancellationRequested hold s e He). }
  assert (_processLockRequests e = resolver Writer x (set_writers rest e))
    as Hs'.
  { unfold _processLockRequests, _processWriteLockRequest, _canTakeWriteLock.
    by rewrite Hc, Hqw, Hw. }
  exists (_processLockRequests e).
  split; [apply release_scheduling; eauto|]. rewrite Hs'.
  rewrite (resolver_queue Writer x _ Writer),
    (resolver_queue Writer x _ Reader),
    (resolver_queue Writer x _ UpgradeableReader),
    (resolver_queue Writer x _ Upgrader).
  rewrite resolver_rejects by done.
  rewrite settle_handles, settle_count. simpl.
  repeat split; try done.
  - apply settle_promises_eq. simpl. rewrite Hp.
    apply (Hwf Writer). simpl. rewrite Hw. by left.
  - intros p Hne. rewrite settle_promises_ne by done. simpl. by rewrite Hp.
Qed.

Lemma readers_handles l s :
  (∀ r, r ∈ l → is_cancelled (w_token r) s = false) →
  handles (foldl (λ s w, resolver Reader w s) s l) =
  handles s ++ replicate (length l) (ReadHandle false).
Proof.
  revert s. induction l as [|w l IH]; intros s Hc; simpl.
  - by rewrite app_nil_r.
  - rewrite IH.
    + rewrite resolver_handles by (apply Hc; by left).
      by rewrite <- app_assoc.
    + intros r Hr.
      rewrite (is_cancelled_ext _ _ s)
        by apply resolver_cancellationRequested.
      apply Hc. by right.
Qed.

Lemma readers_count l s :
  (∀ r, r ∈ l → is_cancelled (w_token r) s = false) →
  _count (foldl (λ s w, resolver Reader w s) s l) =
  _count s + Z.of_nat (length l).
Proof.
  revert s. induction l as [|w l IH]; intros s Hc; simpl; [lia|].
  rewrite IH.
  - rewrite resolver_count by (apply Hc; by left). simpl. lia.
  - intros r Hr.
    rewrite (is_cancelled_ext _ _ s) by apply resolver_cancellationRequested.
    apply Hc. by right.
Qed.

Lemma readers_resolved_at l s i r :
  NoDup (w_promise <$> l) →
  (∀ x, x ∈ l → promises s !! w_promise x = Some (Reader, Unsettled)) →
  (∀ x, x ∈ l → is_cancelled (w_token x) s = false) →
  l !! i = Some r →
  promises (foldl (λ s w, resolver Reader w s) s l) !! w_promise r =
  Some (Reader, Resolved (length (handles s) + i)).
Proof.
  revert s i. induction l as [|x l IH]; intros s i Hnd Hu Hc Hi; [done|].
  rewrite fmap_cons in Hnd. apply NoDup_cons in Hnd as [Hx Hnd]. simpl.
  destruct i as [|i]; simpl in Hi.
  - injection Hi as ->. rewrite readers_promises_ne by done.
    rewrite resolver_promises_eq by (apply Hu; by left).
    rewrite (Hc r) by (by left). by rewrite Nat.add_0_r.
  - rewrite (IH _ i); try done.
    + rewrite resolver_handles by (apply Hc; by left).
      rewrite length_app. simpl. do 3 f_equal. lia.
    + intros y Hy. rewrite resolver_promises_ne; [apply Hu; by right|].
      intros Heq. apply Hx. rewrite <- Heq. by apply list_elem_of_fmap_2.
    + intros y Hy.
      rewrite (is_cancelled_ext _ _ s)
        by apply resolver_cancellationRequested.
      apply Hc. by right.
Qed.

(** A release that finds no writer, no upgrade and no upgradeable reader
    parked lets all parked readers in together: the queue is emptied,
    [_count] goes up by one for each of them, and each gets a read handle
    of its own, in the order of the queue. *)
Theorem release_admits_reader_batch ops hold e :
  let s := run ops new_lock in
  scheduling_entry hold s = Some e → 0 ≤ _count e →
  _writers s = [] → _upgrades s = [] → _upgradeables s = [] →
  (∀ r, r ∈ _readers s → is_cancelled (w_token r) s = false) →
  ∃ s',
    release hold s = Return s' ∧
    _readers s' = [] ∧
    _count s' = _count e + Z.of_nat (length (_readers s)) ∧
    (∀ i r, _readers s !! i = Some r →
       promises s' !! w_promise r
       = Some (Reader, Resolved (length (handles s) + i)) ∧
       handles s' !! (length (handles s) + i)%nat = Some (ReadHandle false)).
Proof.
  intros s He Hc Hw Hu Ha Hr.
  destruct (orderly_run ops new_lock queues_wf_new_lock writer_order_new_lock)
    as [Hwf _]. fold s in Hwf.
  pose proof (scheduling_entry_queue hold s e Writer He) as Hqw.
  pose proof (scheduling_entry_queue hold s e Reader He) as Hqr.
  pose proof (scheduling_entry_queue hold s e Upgrader He) as Hqu.
  pose proof (scheduling_entry_queue hold s e UpgradeableReader He) as Hqa.
  pose proof (scheduling_entry_promises hold s e He) as Hp.
  pose proof (scheduling_entry_handles_length hold s e He) as Hlen.
  simpl in Hqw, Hqr, Hqu, Hqa.
  assert (∀ r, r ∈ _readers s → is_cancelled (w_token r) e = false) as Hr'.
  { intros r Hin. rewrite (is_cancelled_ext _ _ s); [by apply Hr|].
    by eapply scheduling_entry_cancellationRequested. }
  assert (_processLockRequests e =
          set_readers [] (foldl (λ s w, resolver Reader w s) e (_readers s)))
    as Hs'.
  { assert (_processWriteLockRequest e = (false, e)) as H1.
    { unfold _processWriteLockRequest. rewrite Hqw, Hw. by case_match. }
    assert (_processUpgradeRequest e = (false, e)) as H2.
    { unfold _processUpgradeRequest. rewrite Hqu, Hu. by case_match. }
    assert (_processUpgradeableReadLockRequest e = e) as H3.
    { unfold _processUpgradeableReadLockRequest. rewrite Hqa, Ha.
      by case_match. }
    unfold _processLockRequests. rewrite H1, H2, H3.
    unfold _processReadLockRequests, _canTakeReadLock.
    rewrite Hqw, Hw, Hqu, Hu, Hqr. simpl.
    by assert ((0 <=? _count e) = true) as -> by lia. }
  exists (_processLockRequests e).
  split; [apply release_scheduling; eauto|]. rewrite Hs'. simpl.
  split; [done|]. split; [by apply readers_count|].
  intros i r Hi. rewrite <- Hlen. split.
  - apply readers_resolved_at; try done.
    + apply (Hwf Reader).
    + intros x Hx. rewrite Hp. by apply (Hwf Reader).
  - rewrite readers_handles by done.
    rewrite lookup_app_r by lia.
    replace (length (handles e) + i - length (handles e))%nat with i by lia.
    apply lookup_replicate_2. by eapply lookup_lt_Some.
Qed.

End Handover.

Section Eagerness.
Import ReaderWriterLock.

Lemma processUpgradeable_upgrades s :
  _upgrades (_processUpgradeableReadLockRequest s) = _upgrades s.
Proof.
  unfold _processUpgradeableReadLockRequest. case_match; [|done].
  destruct (_upgradeables s) as [|w ws]; [done|].
  apply (resolver_queue UpgradeableReader w (set_upgradeables ws s) Upgrader).
Qed.

Lemma processRead_upgrades s :
  _upgrades (_processReadLockRequests s) = _upgrades s.
Proof.
  unfold _processReadLockRequests. case_match; [|done].
  apply (readers_cleared_queue (_readers s) s Upgrader).
Qed.

(** Without an upgradeable reader the scheduler wakes no upgrade. *)
Lemma schedule_keeps_upgrades e :
  _upgradeable e = None →
  _upgrades (_processLockRequests e) = _upgrades e.
Proof.
  intros Hu. unfold _processLockRequests, _processWriteLockRequest.
  destruct (_canTakeWriteLock e); [destruct (_writers e) as [|w ws]|].
  2: apply (resolver_queue Writer w (set_writers ws e) Upgrader).
  all: unfold _processUpgradeRequest, _canTakeUpgradeLock;
    rewrite Hu, andb_false_r; simpl;
    by rewrite processRead_upgrades, processUpgradeable_upgrades.
Qed.

(** Releasing the upgradeable handle does not withdraw an upgrade that is
    still parked: the queue of upgrades is as before, so the parked
    upgrade goes on barring readers and can be granted later, when some
    upgradeable reader is the only holder. *)
Theorem upgradeable_release_keeps_upgrades s u :
  handles s !! u = Some UpgradeableHandle →
  _upgradeable s = Some u →
  ∃ s', release u s = Return s' ∧ _upgrades s' = _upgrades s.
Proof.
  intros Hh Hu.
  assert (∃ e, scheduling_entry u s = Some e ∧ _upgradeable e = None ∧
               _upgrades e = _upgrades s) as (e & He & Hue & Hq).
  { unfold scheduling_entry. rewrite Hh, bool_decide_eq_true_2 by done.
    eexists. split; [done|]. simpl. by destruct (_count s =? -1). }
  exists (_processLockRequests e). split.
  - apply release_scheduling. eauto.
  - by rewrite schedule_keeps_upgrades.
Qed.

(** [eager] in terms of the fields. *)
Lemma eager_fields s :
  eager s ↔
  (_writers s ≠ [] → _count s ≠ 0) ∧
  (_upgradeables s ≠ [] → _count s < 0 ∨ is_Some (_upgradeable s)) ∧
  (_readers s ≠ [] → _count s < 0 ∨ _writers s ≠ [] ∨ _upgrades s ≠ []).
Proof.
  unfold eager, _canTakeWriteLock, _canTakeUpgradeableReadLock,
    _canTakeReadLock.
  rewrite !andb_false_iff, negb_false_iff, !Nat.eqb_neq, Z.eqb_neq,
    Z.leb_gt.
  assert (∀ l : list waiter, length l ≠ 0%nat ↔ l ≠ []) as Hlen
      by (intros []; naive_solver).
  rewrite !Hlen.
  assert (truthy (_upgradeable s) = true ↔ is_Some (_upgradeable s)) as ->.
  { destruct (_upgradeable s); simpl; split; try done; eauto. }
  split; intros (H1 & H2 & H3); repeat split; try done;
    intros Hr; specialize (H3 Hr); tauto.
Qed.

Lemma census_ge s : census s → -1 ≤ _count s.
Proof.
  intros [_ _ ->| -> | ->]; try done.
  unfold readers_in. destruct (truthy _); lia.
Qed.

Lemma no_cancel s token :
  cancellationRequested s = [] → is_cancelled token s = false.
Proof.
  intros Hc. unfold is_cancelled. rewrite Hc. destruct token; [|done].
  apply bool_decide_eq_false. by intros ?%elem_of_nil.
Qed.

Lemma readers_upgradeable l s :
  _upgradeable (foldl (λ s w, resolver Reader w s) s l) = _upgradeable s.
Proof.
  revert s. induction l as [|w l IH]; intros s; [done|]. simpl.
  rewrite IH, resolver_unfold.
  by destruct (is_cancelled _ s); rewrite settle_upgradeable.
Qed.

Lemma eager_closed s : _count s = -1 → eager s.
Proof.
  intros Hs. apply eager_fields. repeat split; intros _; [lia|left..]; lia.
Qed.

(** What the third and the fourth step of the scheduler leave behind when
    no token is cancelled. *)
Lemma processUpgradeable_summary e :
  cancellationRequested e = [] →
  let s3 := _processUpgradeableReadLockRequest e in
  _writers s3 = _writers e ∧ _upgrades s3 = _upgrades e ∧
  cancellationRequested s3 = [] ∧
  _count e ≤ _count s3 ∧ (_count e < 0 → _count s3 = _count e) ∧
  (_upgradeables s3 ≠ [] → _count s3 < 0 ∨ is_Some (_upgradeable s3)).
Proof.
  intros Hnc s3. unfold s3, _processUpgradeableReadLockRequest.
  unfold _canTakeUpgradeableReadLock.
  destruct (0 <=? _count e) eqn:Hc; simpl.
  - apply Z.leb_le in Hc.
    destruct (_upgradeable e) as [u|] eqn:Hu; simpl.
    { repeat split; try done; try lia. right. rewrite Hu. eauto. }
    destruct (_upgradeables e) as [|y ys] eqn:Hy.
    { by repeat split; try lia. }
    rewrite (resolver_queue UpgradeableReader y _ Writer),
      (resolver_queue UpgradeableReader y _ Upgrader),
      resolver_cancellationRequested, resolver_count,
      resolver_upgradeable by (by apply no_cancel).
    simpl. repeat split; try done; try lia. right. eauto.
  - apply Z.leb_gt in Hc. repeat split; try done; lia.
Qed.

Lemma processRead_summary s3 :
  cancellationRequested s3 = [] →
  let s4 := _processReadLockRequests s3 in
  _writers s4 = _writers s3 ∧ _upgrades s4 = _upgrades s3 ∧
  _upgradeables s4 = _upgradeables s3 ∧ _upgradeable s4 = _upgradeable s3 ∧
  _count s3 ≤ _count s4 ∧ (_count s3 < 0 → _count s4 = _count s3) ∧
  (_readers s4 ≠ [] → _count s4 < 0 ∨ _writers s4 ≠ [] ∨ _upgrades s4 ≠ []).
Proof.
  intros Hnc s4. unfold s4, _processReadLockRequests.
  destruct (_canTakeReadLock s3) eqn:Hcr.
  - pose proof (readers_cleared_queue (_readers s3) s3 UpgradeableReader)
      as Ha.
    pose proof (readers_cleared_queue (_readers s3) s3 Writer) as Hw.
    pose proof (readers_cleared_queue (_readers s3) s3 Upgrader) as Hu.
    simpl in Ha, Hw, Hu. simpl. rewrite Ha, Hw, Hu.
    rewrite readers_upgradeable, readers_count
      by (intros; by apply no_cancel).
    unfold _canTakeReadLock in Hcr.
    rewrite !andb_true_iff, Z.leb_le in Hcr.
    repeat split; try done; lia.
  - repeat split; try done; try lia. intros _.
    unfold _canTakeReadLock in Hcr.
    rewrite !andb_false_iff, !Nat.eqb_neq, Z.leb_gt in Hcr.
    destruct (_writers s3), (_upgrades s3); simpl in Hcr;
      intuition (try lia; try done; auto).
Qed.

(** With no token cancelled, the scheduler leaves no request parked that
    could be admitted, upgrades apart. *)
Lemma eager_schedule e :
  census e → cancellationRequested e = [] → eager (_processLockRequests e).
Proof.
  intros Hcen%census_ge Hnc.
  unfold _processLockRequests, _processWriteLockRequest.
  assert (∀ q w s, cancellationRequested s = cancellationRequested e →
            q = Writer ∨ q = Upgrader → eager (resolver q w s)) as Hex.
  { intros q w s Hs Hq. apply eager_closed.
    rewrite resolver_count by (apply no_cancel; congruence).
    by destruct Hq as [-> | ->]. }
  destruct (_canTakeWriteLock e) eqn:Hcw;
    [destruct (_writers e) as [|w ws] eqn:Hw; [|by apply Hex; auto]|];
    unfold _processUpgradeRequest;
    (destruct (_canTakeUpgradeLock e) eqn:Hcu;
     [destruct (_upgrades e) as [|x xs] eqn:Hup; [|by apply Hex; auto]|]).
  all: destruct (processUpgradeable_summary e Hnc)
         as (Hw3 & Hu3 & Hnc3 & Hle3 & Hneg3 & Ha3).
  all: destruct (processRead_summary _ Hnc3)
         as (Hw4 & Hu4 & Ha4 & Hg4 & Hle4 & Hneg4 & Hr4).
  all: apply eager_fields; split; [|split; [|done]].
  all: rewrite ?Ha4, ?Hg4, ?Hw4, ?Hw3.
  all: try (intros Hne; by destruct Hne).
  all: unfold _canTakeWriteLock in Hcw; rewrite ?Z.eqb_eq, ?Z.eqb_neq in Hcw.
  all: try (intros _; lia).
  all: intros Hne; specialize (Ha3 Hne); destruct Ha3 as [Ha3|Ha3];
    [left; lia|by right].
Qed.

Lemma processLockRequests_cancellationRequested s :
  cancellationRequested (_processLockRequests s) = cancellationRequested s.
Proof.
  assert (∀ s, cancellationRequested (_processReadLockRequests s)
               = cancellationRequested s) as H4.
  { intros s0. unfold _processReadLockRequests. case_match; [|done].
    simpl. apply readers_cancellationRequested. }
  assert (∀ s, cancellationRequested (_processUpgradeableReadLockRequest s)
               = cancellationRequested s) as H3.
  { intros s0. unfold _processUpgradeableReadLockRequest.
    repeat case_match; try done. by rewrite resolver_cancellationRequested. }
  unfold _processLockRequests, _processWriteLockRequest,
    _processUpgradeRequest.
  repeat case_match; simplify_eq;
    rewrite ?H4, ?H3, ?resolver_cancellationRequested; done.
Qed.

Lemma step_cancellationRequested o s :
  (∀ t, o ≠ Cancel t) →
  cancellationRequested (step o s) = cancellationRequested s.
Proof.
  intros Ho.
  assert (∀ q t, cancellationRequested (request q t s).2
                 = cancellationRequested s) as Hreq.
  { intros q t. rewrite request_unfold. simpl.
    repeat case_match; simpl;
      by rewrite ?take_cancellationRequested, ?set_queue_cancellationRequested. }
  destruct o as [t|t|t|hold t|hold|t|p]; simpl; try apply Hreq.
  - destruct (upgrade hold t s) as [[p s']|] eqn:Hu; [|done].
    apply upgrade_Return in Hu as [_ Hu].
    change s' with (p, s').2. rewrite Hu. apply Hreq.
  - destruct (release hold s) eqn:Hr; [|done].
    apply release_scheduling in Hr as (s1 & He & ->).
    rewrite processLockRequests_cancellationRequested.
    by eapply scheduling_entry_cancellationRequested.
  - by destruct (Ho t).
  - unfold notify. repeat case_match; try done. unfold on_cancel.
    case_match; [|done].
    by rewrite settle_cancellationRequested, set_queue_cancellationRequested.
Qed.

Lemma eager_request q token s :
  cancellationRequested s = [] → eager s → eager (request q token s).2.
Proof.
  intros Hnc He. rewrite request_unfold. simpl.
  rewrite (no_cancel s token Hnc).
  apply eager_fields in He as (HW & HA & HR).
  destruct (canTake q s) eqn:Hcan.
  - apply can_take_admits in Hcan as Had.
    destruct q; simpl in Had, Hcan.
    + apply eager_fields. simpl.
      apply (can_take_read_empty Writer) in Hcan as Hw; [|by left].
      simpl in Hw. rewrite Hw in *.
      repeat split; try done.
      * intros [?|Hu]%HA; [lia|by right].
      * intros [?|[?|?]]%HR; [lia|done|auto].
    + destruct Had as [Hn Hu]. apply eager_fields. simpl.
      repeat split; try (intros _; lia); [by right; eauto|].
      intros [?|?]%HR; [lia|auto].
    + by apply eager_closed.
    + by apply eager_closed.
  - apply eager_fields.
    change (_count (register ?x ?y ?z)) with (_count z).
    change (_upgradeable (register ?x ?y ?z)) with (_upgradeable z).
    change (_writers (register ?x ?y ?z)) with (queue Writer z).
    change (_upgrades (register ?x ?y ?z)) with (queue Upgrader z).
    change (_upgradeables (register ?x ?y ?z)) with (queue UpgradeableReader z).
    change (_readers (register ?x ?y ?z)) with (queue Reader z).
    rewrite !set_queue_cases.
    assert (∀ l, _count (set_queue q l (set_promises
                   (promises s ++ [(q, Unsettled)]) s)) = _count s) as ->
        by (intros; by destruct q).
    assert (∀ l, _upgradeable (set_queue q l (set_promises
                   (promises s ++ [(q, Unsettled)]) s)) = _upgradeable s)
      as -> by (intros; by destruct q).
    destruct q; simpl in *;
      unfold _canTakeWriteLock, _canTakeUpgradeableReadLock,
        _canTakeReadLock in Hcan;
      rewrite ?andb_false_iff, ?negb_false_iff, ?Nat.eqb_neq, ?Z.eqb_neq,
        ?Z.leb_gt in Hcan.
    + repeat split; try done. intros _.
      destruct (_writers s), (_upgrades s); simpl in Hcan;
        intuition (try lia; try done; auto).
    + repeat split; try done. intros _.
      destruct (_upgradeable s); simpl in Hcan;
        intuition (try lia; try done; eauto).
    + repeat split; try done. intros [?|[?|?]]%HR; auto.
      right. right. by intros [_ ?]%app_nil.
    + repeat split; try done. intros [?|[?|?]]%HR; auto.
      right. left. by intros [_ ?]%app_nil.
Qed.

Lemma eager_step o s :
  (∀ t, o ≠ Cancel t) →
  census s → cancellationRequested s = [] → eager s → eager (step o s).
Proof.
  intros Ho Hcen Hnc He.
  destruct o as [t|t|t|hold t|hold|t|p]; simpl;
    try by apply eager_request.
  - destruct (upgrade hold t s) as [[p s']|] eqn:Hu; [|done].
    apply upgrade_Return in Hu as [_ Hu].
    change s' with (p, s').2. rewrite Hu. by apply eager_request.
  - destruct (release hold s) eqn:Hr; [|done].
    apply release_scheduling in Hr as (s1 & Hent & ->).
    apply eager_schedule; [by eapply census_scheduling_entry|].
    by rewrite (scheduling_entry_cancellationRequested hold s s1 Hent).
  - by destruct (Ho t).
  - unfold notify. destruct (list_find _ _) as [[i [q w]]|]; [|done].
    by rewrite (no_cancel s _ Hnc).
Qed.

(** In an execution in which no token is cancelled, no writer, no
    upgradeable reader and no reader is ever left parked in a state in
    which the admission predicate of its role holds: whoever can be let
    in has been let in. *)
Theorem eager_without_cancellation ops :
  (∀ t, Cancel t ∉ ops) →
  eager (run ops new_lock).
Proof.
  assert (∀ s, (∀ t, Cancel t ∉ ops) →
            census s → cancellationRequested s = [] → eager s →
            eager (run ops s)) as Hrun.
  { induction ops as [|o ops IH]; intros s Hn Hcen Hnc He; [done|].
    assert (∀ t, o ≠ Cancel t) as Ho.
    { intros t ->. apply (Hn t). by left. }
    simpl. apply IH.
    - intros t Ht. apply (Hn t). by right.
    - by apply census_step.
    - by rewrite step_cancellationRequested.
    - by apply eager_step. }
  intros Hn. apply Hrun; [done|apply census_new_lock|done|].
  by repeat split.
Qed.

End Eagerness.

Section FurtherWitnesses.
Import ReaderWriterLock.

Lemma writer_excludes_witness :
  let s := run [Write None; Read None; Write None] new_lock in
  handles s !! 0%nat = Some (WriteHandle false) ∧ _count s = -1.
Proof.
  intros s. split; [reflexivity|].
  apply (writer_excludes [Write None; Read None; Write None] 0). reflexivity.
Defined.

Lemma upgraded_excludes_witness :
  let s := run [UpgradeableRead None; Upgrade 0 None; Read None] new_lock in
  _upgraded s = Some 1%nat ∧
  (∀ h, handles s !! h ≠ Some (ReadHandle false)).
Proof.
  intros s. split; [reflexivity|].
  apply (upgraded_excludes
           [UpgradeableRead None; Upgrade 0 None; Read None] 1).
  reflexivity.
Defined.

Lemma count_is_census_witness :
  let s := run [Read None; UpgradeableRead None; Read None] new_lock in
  0 ≤ _count s ∧ writers_in s = 0.
Proof.
  intros s.
  assert (0 ≤ _count s) as Hn by (vm_compute; discriminate).
  split; [exact Hn|].
  exact (proj1 (proj2 (proj2 (count_is_census
           [Read None; UpgradeableRead None; Read None]) Hn))).
Defined.

Lemma upgradeable_handle_dead_witness :
  let s := run [UpgradeableRead None; Read None] new_lock in
  ∃ s', release 0 s = Return s' ∧
        ∀ ops token,
          release 0 (run ops s') = Throw LockAlreadyReleased ∧
          upgrade 0 token (run ops s') = Throw LockAlreadyReleased.
Proof.
  intros s. apply (upgradeable_handle_dead s 0); reflexivity.
Defined.

Lemma upgrade_handle_release_once_witness :
  let s := run [UpgradeableRead None; Upgrade 0 None] new_lock in
  ∃ s', release 1 s = Return s' ∧
        ∀ ops, release 1 (run ops s') = Throw LockAlreadyReleased.
Proof.
  intros s. apply (upgrade_handle_release_once s 1); reflexivity.
Defined.

Lemma queues_in_arrival_order_witness :
  let s := run [Write None; Read None; Read (Some 3%nat); Read None]
             new_lock in
  let w := {| w_promise := 1; w_token := None |} in
  let x := {| w_promise := 2; w_token := Some 3%nat |} in
  let y := {| w_promise := 3; w_token := None |} in
  _readers s = [w; x; y] ∧ (w_promise w < w_promise y)%nat.
Proof.
  intros s w x y. split; [reflexivity|].
  apply (proj2 (queues_in_arrival_order
                  [Write None; Read None; Read (Some 3%nat); Read None]
                  Reader) w [x; y] y); [reflexivity|].
  right. by left.
Defined.

Lemma parked_requests_open_witness :
  let s := run [Write None; Read None; Write None] new_lock in
  promises s !! 2%nat = Some (Writer, Unsettled).
Proof.
  intros s.
  apply (parked_requests_open [Write None; Read None; Write None] Writer
           {| w_promise := 2; w_token := None |}).
  by left.
Defined.

Lemma registrations_are_parked_witness :
  let s := run [Write None; Read (Some 7%nat)] new_lock in
  (Reader, {| w_promise := 1; w_token := Some 7%nat |}) ∈ registrations s.
Proof.
  intros s.
  apply (registrations_are_parked [Write None; Read (Some 7%nat)]).
  by left.
Defined.

Lemma notify_after_settle_witness :
  let s := run [Write None; Read (Some 7%nat); Release 0; Cancel 7%nat]
             new_lock in
  notify 1 s = s.
Proof.
  intros s.
  apply (notify_after_settle
           [Write None; Read (Some 7%nat); Release 0; Cancel 7%nat] 1).
  intros q. vm_compute. discriminate.
Defined.

Lemma upgrade_bars_later_readers_witness :
  let s := run [UpgradeableRead None; Read None; Upgrade 0 None; Read None]
             new_lock in
  ({| w_promise := 2; w_token := None |} ∈ _upgrades s) ∧
  promises s !! 3%nat ≠ Some (Reader, Resolved 2).
Proof.
  intros s.
  assert ({| w_promise := 2; w_token := None |} ∈ _upgrades s) as Hw
      by (by left).
  split; [exact Hw|].
  apply (upgrade_bars_later_readers
           [UpgradeableRead None; Read None; Upgrade 0 None; Read None]
           {| w_promise := 2; w_token := None |} 3 2 Hw).
  simpl. lia.
Defined.

Lemma release_hands_over_to_writer_witness :
  let s := run [Write None; Write None; Read None] new_lock in
  ∃ s', release 0 s = Return s' ∧ _count s' = -1 ∧
        _readers s' = _readers s.
Proof.
  intros s.
  destruct (release_hands_over_to_writer
              [Write None; Write None; Read None] 0
              (set_count 0
                 (set_handles (<[0%nat := WriteHandle true]> (handles s)) s))
              {| w_promise := 1; w_token := None |} [])
    as (s' & Hr & _ & _ & Hc & _ & Hq & _); [vm_compute; reflexivity..|].
  exists s'. auto.
Defined.

Lemma release_hands_over_to_upgrade_witness :
  let s := run [UpgradeableRead None; Read None; Upgrade 0 None] new_lock in
  ∃ s', release 1 s = Return s' ∧ _upgraded s' = Some 2%nat ∧
        _count s' = -1.
Proof.
  intros s.
  destruct (release_hands_over_to_upgrade
              [UpgradeableRead None; Read None; Upgrade 0 None] 1
              (set_count 1
                 (set_handles (<[1%nat := ReadHandle true]> (handles s)) s))
              {| w_promise := 2; w_token := None |} [] 0)
    as (s' & Hr & _ & _ & Hg & _ & Hc & _); [vm_compute; reflexivity..|].
  exists s'. auto.
Defined.

Lemma release_meets_cancelled_writer_witness :
  let s := run [Write None; Write (Some 7%nat); Read None; Cancel 7%nat]
             new_lock in
  ∃ s', release 0 s = Return s' ∧ _count s' = 0 ∧
        _readers s' = [{| w_promise := 2; w_token := None |}].
Proof.
  intros s.
  destruct (release_meets_cancelled_writer
              [Write None; Write (Some 7%nat); Read None; Cancel 7%nat] 0
              (set_count 0
                 (set_handles (<[0%nat := WriteHandle true]> (handles s)) s))
              {| w_promise := 1; w_token := Some 7%nat |} [])
    as (s' & Hr & _ & Hc & _ & _ & Hq & _); [vm_compute; reflexivity..|].
  exists s'. auto.
Defined.

Lemma release_admits_reader_batch_witness :
  let s := run [Write None; Read None; Read None] new_lock in
  ∃ s', release 0 s = Return s' ∧ _readers s' = [] ∧ _count s' = 2.
Proof.
  intros s.
  destruct (release_admits_reader_batch
              [Write None; Read None; Read None] 0
              (set_count 0
                 (set_handles (<[0%nat := WriteHandle true]> (handles s)) s)))
    as (s' & Hr & Hq & Hc & _); try (vm_compute; reflexivity).
  - vm_compute. discriminate.
  - intros r Hr.
    repeat (apply elem_of_cons in Hr as [->|Hr]; [reflexivity|]).
    by apply elem_of_nil in Hr.
  - exists s'. auto.
Defined.

Lemma upgradeable_release_keeps_upgrades_witness :
  let s := run [UpgradeableRead None; Read None; Upgrade 0 None] new_lock in
  _upgrades s = [{| w_promise := 2; w_token := None |}] ∧
  ∃ s', release 0 s = Return s' ∧ _upgrades s' = _upgrades s.
Proof.
  intros s. split; [reflexivity|].
  apply (upgradeable_release_keeps_upgrades s 0); reflexivity.
Defined.

Lemma eager_without_cancellation_witness :
  let ops := [Write None; Read None; Write None; Release 0] in
  (∀ t, Cancel t ∉ ops) ∧ eager (run ops new_lock).
Proof.
  intros ops.
  assert (∀ t, Cancel t ∉ ops) as Hn.
  { intros t H. repeat (apply elem_of_cons in H as [H|H]; [discriminate H|]).
    by apply elem_of_nil in H. }
  split; [exact Hn|]. exact (eager_without_cancellation ops Hn).
Defined.

End FurtherWitnesses.

(** * Further properties of AsyncQueue *)

Section AsyncQueueMore.
Import AsyncQueue.
Context {T : Type}.
Implicit Types (q : queue T) (v : T) (p : promise T) (ops : list (op T)).

(** Values given to the constructor are served before any value put
    later: the k-th [get] is settled with the k-th of the initial values
    followed by the values put, in order. *)
Theorem queue_fifo_initial (iterable : option (list T)) ops k v p :
  (default [] iterable ++ puts ops) !! k = Some v →
  (run ops (constructor iterable)).2 !! k = Some p →
  value_of (run ops (constructor iterable)).1 p = Some v.
Proof.
  apply fifo_rendezvous.
  apply (fifo_run ops _ (default [] iterable) []), fifo_constructor.
Qed.

(** A [get] beyond the values supplied so far holds a promise that is
    still open. *)
Theorem queue_get_unserved (iterable : option (list T)) ops k p :
  (run ops (constructor iterable)).2 !! k = Some p →
  (length (default [] iterable ++ puts ops) ≤ k)%nat →
  value_of (run ops (constructor iterable)).1 p = None.
Proof.
  pose proof (fifo_run ops _ _ [] (fifo_constructor iterable)) as Hf.
  simpl in Hf. destruct Hf as (gd & pd & pa & Hps & _ & -> & Hv & _ & _ & Hc).
  intros Hk Hlen.
  assert (length gd = length pd) as Hgd.
  { apply (f_equal length) in Hv. by rewrite !length_fmap in Hv. }
  rewrite Hps, length_app in Hlen.
  rewrite lookup_app_r in Hk by lia.
  apply list_lookup_fmap_Some in Hk as (r & -> & Hr).
  simpl. rewrite (Hc r); [done|]. by eapply list_elem_of_lookup_2.
Qed.

Lemma size_put q v : exclusive q → size (put v q) = size q + 1.
Proof.
  unfold exclusive, put, size, available, pending.
  destruct q as [[[|x a]|] [[|r [|r' p]]|] c]; simpl; intros [?|?];
    try done; rewrite ?length_app; simpl; lia.
Qed.

Lemma size_get q : exclusive q → size (get q).2 = size q - 1.
Proof.
  unfold exclusive, get, size, available, pending.
  destruct q as [[[|x [|x' a]]|] [[|r p]|] c]; simpl; intros [?|?];
    try done; rewrite ?length_app; simpl; lia.
Qed.

Lemma size_run ops q :
  exclusive q →
  size (run ops q).1 =
  size q + Z.of_nat (length (puts ops)) - Z.of_nat (length (run ops q).2).
Proof.
  revert q. induction ops as [|[v|] ops IH]; intros q Hq.
  - simpl. lia.
  - simpl. rewrite IH by (by apply exclusive_put). rewrite size_put by done.
    lia.
  - rewrite run_get. simpl. rewrite IH by (by apply exclusive_get).
    rewrite size_get by done. lia.
Qed.

(** [size] is the balance of the queue: the values supplied (by the
    constructor and by [put]) minus the calls of [get]. *)
Theorem queue_size_balance (iterable : option (list T)) ops :
  size (run ops (constructor iterable)).1 =
  Z.of_nat (length (default [] iterable)) + Z.of_nat (length (puts ops))
  - Z.of_nat (length (run ops (constructor iterable)).2).
Proof.
  rewrite size_run by apply exclusive_constructor. f_equal. f_equal.
  unfold size. destruct iterable as [[|x l]|]; simpl; try done.
  by rewrite length_fmap.
Qed.

End AsyncQueueMore.

Lemma queue_fifo_initial_witness :
  AsyncQueue.value_of
    (AsyncQueue.run [AsyncQueue.Get; AsyncQueue.Put 5%nat; AsyncQueue.Get]
       (AsyncQueue.constructor (Some [7%nat]))).1
    (AsyncQueue.PromiseResolve 5%nat)
  = Some 5%nat.
Proof.
  apply (queue_fifo_initial (Some [7%nat])
           [AsyncQueue.Get; AsyncQueue.Put 5%nat; AsyncQueue.Get] 1%nat);
    reflexivity.
Defined.

Lemma queue_get_unserved_witness :
  AsyncQueue.value_of
    (AsyncQueue.run [AsyncQueue.Get; AsyncQueue.Put 5%nat; AsyncQueue.Get]
       (AsyncQueue.constructor None)).1
    (AsyncQueue.PromiseNew 1)
  = None.
Proof.
  apply (queue_get_unserved None
           [AsyncQueue.Get; AsyncQueue.Put 5%nat; AsyncQueue.Get] 1%nat);
    [reflexivity|simpl; lia].
Defined.
